(** * A contrario homography filter: [GeometricFilter_HMatrix_AC]

    A shallow embedding of
    [src/openMVG/matching_image_collection/H_ACRobust.hpp] and the properties
    of its two entry points, [Robust_estimation] and
    [Geometry_guided_matching], together with the coordinate export helper
    [fillMatricesWithUndistortFeatures].

    Conventions.
    - [double] values are IEEE binary64 numbers (Rocq's primitive floats), so
      [infinity], the comparison with it and [Square] are the machine ones.
    - [size_t] and [IndexT] are [nat]: the header does no arithmetic on them
      that could wrap.
    - A [std::map] is a [gmap]; a [std::vector] is a [list].
    - [std::map::at] on a missing key throws [std::out_of_range]: code that
      can throw returns an [outcome].
    - The headers included by [H_ACRobust.hpp] are the collaborators of the
      filter.  They enter through the classes [EstimationEnv] and
      [MatchingEnv]; the instances further down are modelled from the
      specification. *)

From Stdlib Require Import PrimFloat FloatAxioms SpecFloat FloatOps QArith.
From stdpp Require Import gmap list fin_maps sorting.

Set Warnings "-clear-no-such-hyp".

Local Open Scope nat_scope.

(** ** Scalars, vectors and matrices *)

Definition double : Set := float.

Definition Square (x : double) : double := PrimFloat.mul x x.

(** [Vec2]: a column of two doubles.  [Mat]: a 2 x n matrix, kept as the list
    of its columns (every access of the header is [m.col(i)]). *)
Definition Vec2 : Set := double * double.
Definition Mat : Set := list Vec2.

Definition Vec3 : Set := double * double * double.
Definition Mat3 : Set := Vec3 * Vec3 * Vec3.

Definition Mat3_Identity : Mat3 :=
  ((1%float, 0%float, 0%float),
   (0%float, 1%float, 0%float),
   (0%float, 0%float, 1%float)).

(** [m.resize(2, n)]: Eigen leaves the coefficients unspecified; every column
    is written before it is read, the model fills them with zeros. *)
Definition Mat_resize (n : nat) : Mat := replicate n (0%float, 0%float).

(** ** Exceptions *)

Inductive exception : Set := out_of_range.

Inductive outcome (A : Type) : Type :=
| Returned (a : A)
| Thrown (e : exception).
Arguments Returned {A} a.
Arguments Thrown {A} e.

#[global] Instance outcome_ret : MRet outcome := fun A a => Returned a.

#[global] Instance outcome_bind : MBind outcome := fun A B k c =>
  match c with
  | Returned a => k a
  | Thrown e => Thrown e
  end.

(** [std::map::at] *)
Definition map_at {V : Type} (m : gmap nat V) (k : nat) : outcome V :=
  match m !! k with
  | Some v => Returned v
  | None => Thrown out_of_range
  end.

(** ** Features, regions, cameras and the scene *)

Abbreviation IndexT := nat (only parsing).
Abbreviation EImageDescriberType := nat (only parsing).
Definition Pair : Set := nat * nat.

(** A point feature holds single precision coordinates; [cast<double>] of a
    binary32 number is exact, so the coordinates are kept as the doubles they
    cast to. *)
Record PointFeature : Set := { coords : Vec2 }.
Definition feat_x (f : PointFeature) : double := fst (coords f).
Definition feat_y (f : PointFeature) : double := snd (coords f).
Abbreviation PointFeatures := (list PointFeature) (only parsing).

Definition Descriptor : Set := list nat.

Record Regions : Set := {
  GetRegionsPositions : list PointFeature;
  Descriptors : list Descriptor
}.

(** [cameras::IntrinsicBase]: the two virtual methods the header calls. *)
Record IntrinsicBase : Set := {
  isValid : bool;
  get_ud_pixel : Vec2 -> Vec2
}.

Record View : Set := {
  ui_width : nat;
  ui_height : nat;
  id_intrinsic : nat
}.

Record SfM_Data : Set := {
  views : gmap nat View;
  intrinsics : gmap nat IntrinsicBase
}.
Definition GetViews (d : SfM_Data) := views d.
Definition GetIntrinsics (d : SfM_Data) := intrinsics d.

(** ** Matches *)

Record IndMatch : Set := { _i : nat; _j : nat }.

#[global] Instance IndMatch_eq_dec : EqDecision IndMatch.
Proof. solve_decision. Defined.

Abbreviation IndMatches := (list IndMatch) (only parsing).
Abbreviation MatchesPerDescType := (gmap nat (list IndMatch)) (only parsing).

(** [MatchesPerDescType::getNbAllMatches] *)
Definition getNbAllMatches (m : MatchesPerDescType) : nat :=
  map_fold (fun _ v n => length v + n) 0 m.

(** [MatchesPerDescType::getNbMatches] *)
Definition getNbMatches (m : MatchesPerDescType) (d : EImageDescriberType) : nat :=
  length (default [] (m !! d)).

(** [m[descType].push_back(x)] *)
Definition push_back_at (d : EImageDescriberType) (x : IndMatch)
    (m : MatchesPerDescType) : MatchesPerDescType :=
  <[d := default [] (m !! d) ++ [x]]> m.

(** ** [fillMatricesWithUndistortFeatures] (lines 102-129) *)

(** The two loops share their shape: column [i] receives [f] of the feature
    under the iterator, then both advance. *)
Fixpoint fill_loop (f : PointFeature -> Vec2) (vec_feats : list PointFeature)
    (i : nat) (m : Mat) : Mat :=
  match vec_feats with
  | [] => m
  | iter :: rest => fill_loop f rest (S i) (<[i := f iter]> m)
  end.

Definition hasValidIntrinsics (cam : option IntrinsicBase) : bool :=
  match cam with
  | Some c => isValid c
  | None => false
  end.

Definition fillMatricesWithUndistortFeatures (cam : option IntrinsicBase)
    (vec_feats : list PointFeature) (m : Mat) : Mat :=
  match cam with
  | Some c =>
      if isValid c
      then fill_loop (fun iter => get_ud_pixel c (feat_x iter, feat_y iter)) vec_feats 0 m
      else fill_loop coords vec_feats 0 m
  | None => fill_loop coords vec_feats 0 m
  end.

(** [createMatricesWithUndistortFeatures], the [PointFeatures] overload
    (lines 155-168). *)
Definition createMatricesWithUndistortFeatures (cam : option IntrinsicBase)
    (vec_feats : list PointFeature) : Mat :=
  let nbRegions := length vec_feats in
  fillMatricesWithUndistortFeatures cam vec_feats (Mat_resize nbRegions).

(** The column the export writes for one feature. *)
Definition exported_column (cam : option IntrinsicBase) (f : PointFeature) : Vec2 :=
  match cam with
  | Some c => if isValid c then get_ud_pixel c (feat_x f, feat_y f) else coords f
  | None => coords f
  end.

(** ** The regions of the views *)

(** [features::RegionsPerView]: per view, per descriptor type, the regions. *)
Abbreviation MapRegionsPerDesc := (gmap nat Regions) (only parsing).
Abbreviation RegionsPerView := (gmap nat (gmap nat Regions)) (only parsing).

(** Modelled from the spec: [RegionsPerView::getRegions] and
    [RegionsPerView::getAllRegions] (RegionsPerView.hpp is not part of the
    sources at hand).  They index the two maps; a missing entry throws, as
    [std::map::at] does. *)
Definition getAllRegions (r : RegionsPerView) (viewId : IndexT)
    : outcome MapRegionsPerDesc :=
  map_at r viewId.

Definition getRegions (r : RegionsPerView) (viewId : IndexT)
    (descType : EImageDescriberType) : outcome Regions :=
  perDesc ← getAllRegions r viewId;
  map_at perDesc descType.

(** Modelled from the spec: [RegionsPerView::getCommonDescTypes]
    (RegionsPerView.hpp is not part of the sources at hand), "the common
    descriptor-type list for an image pair": the descriptor types of the
    first view that the second view has too, each once.  A view without
    regions has no descriptor type. *)
Definition RegionsPerView_getCommonDescTypes (r : RegionsPerView) (pair : Pair)
    : list EImageDescriberType :=
  let descI : MapRegionsPerDesc := default ∅ (r !! pair.1) in
  let descJ : MapRegionsPerDesc := default ∅ (r !! pair.2) in
  filter (fun d => is_Some (descJ !! d)) (map_to_list descI).*1.

(** The estimation is a template over its regions or features provider; the
    one member it calls is [getCommonDescTypes]. *)
Class RegionsProvider (T : Type) : Type := {
  getCommonDescTypes : T -> Pair -> list EImageDescriberType
}.

#[global] Instance RegionsPerView_provider : RegionsProvider RegionsPerView := {
  getCommonDescTypes := RegionsPerView_getCommonDescTypes
}.

(** ** The filter object (lines 25-31 and 250-255) *)

Record GeometricFilter_HMatrix_AC : Set := {
  m_dPrecision : double;        (* upper bound precision of the estimation *)
  m_stIteration : nat;          (* maximal number of iterations *)
  m_H : Mat3;                   (* stored model *)
  m_dPrecision_robust : double  (* stored robust precision *)
}.

(** The constructor; its defaults are [infinity] and [1024]. *)
Definition GeometricFilter_HMatrix_AC_new (dPrecision : double) (iteration : nat)
    : GeometricFilter_HMatrix_AC :=
  {| m_dPrecision := dPrecision;
     m_stIteration := iteration;
     m_H := Mat3_Identity;
     m_dPrecision_robust := infinity |}.

Definition GeometricFilter_HMatrix_AC_default : GeometricFilter_HMatrix_AC :=
  GeometricFilter_HMatrix_AC_new infinity 1024.

Definition set_m_H (self : GeometricFilter_HMatrix_AC) (H : Mat3) :=
  {| m_dPrecision := m_dPrecision self;
     m_stIteration := m_stIteration self;
     m_H := H;
     m_dPrecision_robust := m_dPrecision_robust self |}.

Definition set_m_dPrecision_robust (self : GeometricFilter_HMatrix_AC) (p : double) :=
  {| m_dPrecision := m_dPrecision self;
     m_stIteration := m_stIteration self;
     m_H := m_H self;
     m_dPrecision_robust := p |}.

(** ** The kernel (lines 61-72) *)

(** [ACKernelAdaptor<FourPointSolver, AsymmetricError, UnnormalizerI, Mat3>]:
    what the constructor receives. *)
Record KernelType : Set := {
  x1 : Mat; w1 : nat; h1 : nat;
  x2 : Mat; w2 : nat; h2 : nat;
  bPointToLine : bool
}.

(** Modelled from the spec: [KernelType::MINIMUM_SAMPLES]
    (solver_homography_kernel.hpp is not part of the sources at hand), "the
    minimal sample size, 4 for a homography". *)
Definition MINIMUM_SAMPLES : nat := 4.

(** Modelled from the spec: the macro [OPENMVG_MINIMUM_SAMPLES_COEF] (its
    header is not part of the sources at hand), "a minimum viable multiple
    (design constant: 2.5 x) of the kernel's minimal sample size". *)
Definition OPENMVG_MINIMUM_SAMPLES_COEF : Q := 5 # 2.

(** [inliers.size() <= KernelType::MINIMUM_SAMPLES * OPENMVG_MINIMUM_SAMPLES_COEF]
    (line 80).  C++ compares the two sides as doubles; the product is the
    double 10 and a size converts to a double monotonically, exactly below
    2^53, so the comparison is the one of the rationals. *)
Definition too_few_inliers (size : nat) : bool :=
  Qle_bool (inject_Z (Z.of_nat size))
           (inject_Z (Z.of_nat MINIMUM_SAMPLES) * OPENMVG_MINIMUM_SAMPLES_COEF).

(** ** The collaborators of [Robust_estimation] *)

(** The functions of the included headers that [Robust_estimation] calls.
    [ACRANSAC] receives the kernel, the iteration budget, the model slot
    [&m_H] (its value on entry; the value it leaves is part of the result),
    the upper bound and the state of the random generator it samples from; it
    yields the inliers, the model slot, the pair (precision, NFA) and the
    generator. *)
Class EstimationEnv (T : Type) : Type := {
  Rng : Type;
  est_provider :: RegionsProvider T;
  MatchesPairToMat :
    Pair -> MatchesPerDescType -> SfM_Data -> T ->
    list EImageDescriberType -> outcome (Mat * Mat);
  ACRANSAC :
    KernelType -> nat -> Mat3 -> double -> Rng ->
    list nat * Mat3 * (double * double) * Rng;
  copyInlierMatches :
    list nat -> MatchesPerDescType -> list EImageDescriberType ->
    MatchesPerDescType -> MatchesPerDescType
}.

(** What a call of [Robust_estimation] leaves behind: the returned boolean,
    the object, the output parameter, the local [inliers] as it is when the
    function returns, and the random generator. *)
Record estimation_exit (R : Type) : Type := {
  est_ret : bool;
  est_self : GeometricFilter_HMatrix_AC;
  est_out : gmap nat (list IndMatch);
  est_inliers : list nat;
  est_rng : R
}.
Arguments est_ret {R} _.
Arguments est_self {R} _.
Arguments est_out {R} _.
Arguments est_inliers {R} _.
Arguments est_rng {R} _.

(** ** [Robust_estimation] (lines 37-96) *)

Definition Robust_estimation {T : Type} `{EstimationEnv T}
    (self : GeometricFilter_HMatrix_AC)
    (sfmData : SfM_Data) (regionsPerView : T) (pairIndex : Pair)
    (putativeMatchesPerType : MatchesPerDescType)
    (geometricInliersPerType : MatchesPerDescType)
    (g : Rng) : outcome (estimation_exit Rng) :=
  let geometricInliersPerType : MatchesPerDescType := ∅ in
  let iIndex := pairIndex.1 in
  let jIndex := pairIndex.2 in
  let descTypes := getCommonDescTypes regionsPerView pairIndex in
  if bool_decide (descTypes = []) then
    Returned {| est_ret := false; est_self := self;
                est_out := geometricInliersPerType;
                est_inliers := []; est_rng := g |}
  else
    '(x_I, x_J) ← MatchesPairToMat pairIndex putativeMatchesPerType sfmData
                   regionsPerView descTypes;
    view_i ← map_at (GetViews sfmData) iIndex;
    view_j ← map_at (GetViews sfmData) jIndex;
    let kernel :=
      {| x1 := x_I; w1 := ui_width view_i; h1 := ui_height view_i;
         x2 := x_J; w2 := ui_width view_j; h2 := ui_height view_j;
         bPointToLine := false |} in
    let upper_bound_precision := Square (m_dPrecision self) in
    let '(inliers, H, ACRansacOut, g') :=
      ACRANSAC kernel (m_stIteration self) (m_H self) upper_bound_precision g in
    let self := set_m_H self H in
    if too_few_inliers (length inliers) then
      Returned {| est_ret := false; est_self := self;
                  est_out := geometricInliersPerType;
                  est_inliers := []; est_rng := g' |}
    else
      let self := set_m_dPrecision_robust self ACRansacOut.1 in
      let geometricInliersPerType :=
        copyInlierMatches inliers putativeMatchesPerType descTypes
          geometricInliersPerType in
      Returned {| est_ret := true; est_self := self;
                  est_out := geometricInliersPerType;
                  est_inliers := inliers; est_rng := g' |}.

(** ** The collaborators of [Geometry_guided_matching] *)

(** [GuidedMatching] is the overload on two point matrices, which fills a
    fresh vector; [GuidedMatching_regions] the overload on cameras and
    regions, which works on the caller's [matches];
    [getDeduplicated matches featsI featsJ] builds the
    [IndMatchDecorator<float>] of the three and runs its [getDeduplicated]. *)
Class MatchingEnv : Type := {
  GuidedMatching : Mat3 -> Mat -> Mat -> double -> list IndMatch;
  GuidedMatching_regions :
    Mat3 -> option IntrinsicBase -> MapRegionsPerDesc ->
    option IntrinsicBase -> MapRegionsPerDesc ->
    double -> double -> MatchesPerDescType -> MatchesPerDescType;
  getDeduplicated :
    list IndMatch -> list PointFeature -> list PointFeature -> list IndMatch
}.

(** ** [Geometry_guided_matching] (lines 179-248) *)

(** The matches of one descriptor type in the mode without descriptors
    (lines 213-231). *)
Definition guided_local_matches `{MatchingEnv}
    (self : GeometricFilter_HMatrix_AC)
    (cam_I cam_J : option IntrinsicBase)
    (regions_I regions_J : Regions) : list IndMatch :=
  let pointsFeaturesI := GetRegionsPositions regions_I in
  let pointsFeaturesJ := GetRegionsPositions regions_J in
  let x_I := createMatricesWithUndistortFeatures cam_I pointsFeaturesI in
  let x_J := createMatricesWithUndistortFeatures cam_J pointsFeaturesJ in
  let localMatches :=
    GuidedMatching (m_H self) x_I x_J (Square (m_dPrecision_robust self)) in
  getDeduplicated localMatches pointsFeaturesI pointsFeaturesJ.

(** The loop over the descriptor types (lines 211-233). *)
Fixpoint guided_loop `{MatchingEnv}
    (self : GeometricFilter_HMatrix_AC)
    (regionsPerView : RegionsPerView) (viewId_I viewId_J : IndexT)
    (cam_I cam_J : option IntrinsicBase)
    (descTypes : list EImageDescriberType)
    (matches : MatchesPerDescType) : outcome MatchesPerDescType :=
  match descTypes with
  | [] => Returned matches
  | descType :: rest =>
      regions_I ← getRegions regionsPerView viewId_I descType;
      regions_J ← getRegions regionsPerView viewId_J descType;
      let localMatches :=
        guided_local_matches self cam_I cam_J regions_I regions_J in
      guided_loop self regionsPerView viewId_I viewId_J cam_I cam_J rest
        (<[descType := localMatches]> matches)
  end.

Record matching_exit : Type := {
  gm_ret : bool;
  gm_self : GeometricFilter_HMatrix_AC;
  gm_matches : gmap nat (list IndMatch)
}.

(** [m_dPrecision_robust != std::numeric_limits<double>::infinity()] *)
Definition precision_is_bounded (self : GeometricFilter_HMatrix_AC) : bool :=
  negb (PrimFloat.eqb (m_dPrecision_robust self) infinity).

(** The camera of a view, if the scene has one (lines 202-207): the
    intrinsic of the view when the scene counts it, the null pointer
    otherwise. *)
Definition intrinsic_of (sfmData : SfM_Data) (view : View) : option IntrinsicBase :=
  GetIntrinsics sfmData !! id_intrinsic view.
Arguments intrinsic_of : simpl never.

(** The two modes (lines 209-245). *)
Definition guided_mode `{MatchingEnv}
    (self : GeometricFilter_HMatrix_AC)
    (regionsPerView : RegionsPerView) (viewId_I viewId_J : IndexT)
    (cam_I cam_J : option IntrinsicBase)
    (descTypes : list EImageDescriberType) (dDistanceRatio : double)
    (matches : MatchesPerDescType) : outcome MatchesPerDescType :=
  if PrimFloat.ltb dDistanceRatio 0%float then
    guided_loop self regionsPerView viewId_I viewId_J cam_I cam_J
      descTypes matches
  else
    allRegions_I ← getAllRegions regionsPerView viewId_I;
    allRegions_J ← getAllRegions regionsPerView viewId_J;
    Returned
      (GuidedMatching_regions (m_H self) cam_I allRegions_I cam_J allRegions_J
         (Square (m_dPrecision_robust self)) (Square dDistanceRatio)
         matches).

(** The block under the guard on the robust precision (lines 189-246),
    followed by the final [return]. *)
Definition guarded_block `{MatchingEnv}
    (self : GeometricFilter_HMatrix_AC)
    (sfmData : SfM_Data) (regionsPerView : RegionsPerView)
    (imageIdsPair : Pair) (dDistanceRatio : double)
    (matches : MatchesPerDescType) : outcome matching_exit :=
  let descTypes := getCommonDescTypes regionsPerView imageIdsPair in
  if bool_decide (descTypes = []) then
    Returned {| gm_ret := false; gm_self := self; gm_matches := matches |}
  else
    let viewId_I := imageIdsPair.1 in
    let viewId_J := imageIdsPair.2 in
    view_I ← map_at (views sfmData) viewId_I;
    view_J ← map_at (views sfmData) viewId_J;
    let cam_I := intrinsic_of sfmData view_I in
    let cam_J := intrinsic_of sfmData view_J in
    matches ← guided_mode self regionsPerView viewId_I viewId_J cam_I cam_J
                 descTypes dDistanceRatio matches;
    Returned {| gm_ret := negb (getNbAllMatches matches =? 0);
                gm_self := self; gm_matches := matches |}.

Definition Geometry_guided_matching `{MatchingEnv}
    (self : GeometricFilter_HMatrix_AC)
    (sfmData : SfM_Data) (regionsPerView : RegionsPerView)
    (imageIdsPair : Pair) (dDistanceRatio : double)
    (matches : MatchesPerDescType) : outcome matching_exit :=
  if precision_is_bounded self then
    guarded_block self sfmData regionsPerView imageIdsPair dDistanceRatio
      matches
  else
    Returned {| gm_ret := negb (getNbAllMatches matches =? 0);
                gm_self := self; gm_matches := matches |}.

(** ** The estimator, modelled from the specification *)

(** The pluggable parts of the estimator: the random generator it samples
    from ([UniformSample sizeSample n g] draws [sizeSample] of the indices
    below [n]), the minimal solver, the error of a pair of points under a
    model, and the number of false alarms of [k] inliers among [n] points at
    a residual. *)
Class EstimatorStrategy : Type := {
  Seed : Type;
  UniformSample : nat -> nat -> Seed -> list nat * Seed;
  Solve : list (Vec2 * Vec2) -> list Mat3;
  Error : Mat3 -> Vec2 -> Vec2 -> double;
  NFA : nat -> nat -> double -> double
}.

(** Modelled from the spec: the members of the kernel adaptor
    (robust_estimator_ACRansacKernelAdaptator.hpp is not part of the sources
    at hand), section 4.2: the total point count, "fit(sample indices)" and
    "residual(model, point index)".  Column [i] of [x1] is paired with
    column [i] of [x2]. *)
Definition kernel_points (kernel : KernelType) : list (Vec2 * Vec2) :=
  zip (x1 kernel) (x2 kernel).

Definition NumSamples (kernel : KernelType) : nat :=
  length (kernel_points kernel).

Definition Fit `{EstimatorStrategy} (kernel : KernelType) (samples : list nat)
    : list Mat3 :=
  Solve (omap (fun i => kernel_points kernel !! i) samples).

Definition Errors `{EstimatorStrategy} (kernel : KernelType) (model : Mat3)
    : list (double * nat) :=
  imap (fun i p => (Error model p.1 p.2, i)) (kernel_points kernel).

(** Residuals in ascending order, each with the index of its point. *)
Fixpoint insert_residual (p : double * nat) (l : list (double * nat))
    : list (double * nat) :=
  match l with
  | [] => [p]
  | q :: l' =>
      if PrimFloat.ltb q.1 p.1 then q :: insert_residual p l'
      else p :: q :: l'
  end.

Definition sort_residuals (l : list (double * nat)) : list (double * nat) :=
  foldr insert_residual [] l.

(** The best tuple found so far (section 4.3, step 4). *)
Record candidate : Set := {
  c_model : Mat3;
  c_threshold : double;
  c_nfa : double;
  c_inliers : list nat
}.

(** An unbounded upper bound "disables any user cap on the threshold
    sweep"; "a finite upper bound restricts the sweep to residuals below its
    square".  [ACRANSAC] receives the bound already squared. *)
Definition within_bound (upper residual : double) : bool :=
  PrimFloat.eqb upper infinity || PrimFloat.ltb residual upper.

(** The candidate of a model at the inlier count [k] (step 3): the [k]
    smallest residuals are the inliers, the [k]-th one is the threshold. *)
Definition candidate_at `{EstimatorStrategy} (model : Mat3) (upper : double)
    (n : nat) (sorted : list (double * nat)) (k : nat) : option candidate :=
  match k with
  | 0 => None
  | S k' =>
      match sorted !! k' with
      | Some (residual, _) =>
          if within_bound upper residual then
            Some {| c_model := model; c_threshold := residual;
                    c_nfa := NFA n k residual;
                    c_inliers := (take k sorted).*2 |}
          else None
      | None => None
      end
  end.

(** "Ties in NFA score are broken by larger inlier count, then by lower
    iteration index (first found wins)." *)
Definition improves (new old : candidate) : bool :=
  PrimFloat.ltb (c_nfa new) (c_nfa old)
  || (PrimFloat.eqb (c_nfa new) (c_nfa old)
      && (length (c_inliers old) <? length (c_inliers new))).

Definition keep_best (best : option candidate) (new : option candidate)
    : option candidate :=
  match best, new with
  | Some b, Some c => if improves c b then Some c else Some b
  | None, Some c => Some c
  | _, None => best
  end.

(** The sweep over the inlier counts "from the minimal sample size up to the
    full point count" for one model. *)
Definition sweep `{EstimatorStrategy} (kernel : KernelType) (upper : double)
    (best : option candidate) (model : Mat3) : option candidate :=
  let n := NumSamples kernel in
  let sorted := sort_residuals (Errors kernel model) in
  foldl (fun b k => keep_best b (candidate_at model upper n sorted k))
        best (seq MINIMUM_SAMPLES (S n - MINIMUM_SAMPLES)).

(** Steps 1 to 4, once per iteration of the budget: draw a minimal sample,
    fit the candidate models (none for a degenerate sample), score them. *)
Fixpoint ACRANSAC_loop `{EstimatorStrategy} (kernel : KernelType)
    (upper : double) (nIter : nat) (best : option candidate) (g : Seed)
    : option candidate * Seed :=
  match nIter with
  | 0 => (best, g)
  | S nIter' =>
      let '(sample, g') := UniformSample MINIMUM_SAMPLES (NumSamples kernel) g in
      let models := Fit kernel sample in
      ACRANSAC_loop kernel upper nIter' (foldl (sweep kernel upper) best models) g'
  end.

(** Modelled from the spec: [ACRANSAC] (robust_estimator_ACRansac.hpp is not
    part of the sources at hand), section 4.3, steps 1 to 4 and 6: it
    "retains the best (model, threshold, inlier-set) tuple found within the
    iteration budget", "writes the winning model into the caller-owned
    slot" and "returns the inlier index set and the pair (refined robust
    precision, NFA score); the refined precision is the square-rooted
    residual threshold".  The acceptance test of step 5 is not part of it:
    [Robust_estimation] makes this test itself at lines 80-84, on the
    inliers [ACRANSAC] has returned, that is, after the slot [&m_H] it
    handed over at line 78 has been written.  Without any candidate there
    is no winning model: the slot is left alone, no inlier is reported and
    the pair is unbounded.  The early exit, which the specification leaves
    optional, is not taken. *)
Definition spec_ACRANSAC `{EstimatorStrategy} (kernel : KernelType)
    (nIter : nat) (model : Mat3) (precision : double) (g : Seed)
    : list nat * Mat3 * (double * double) * Seed :=
  let '(best, g') := ACRANSAC_loop kernel precision nIter None g in
  match best with
  | Some c =>
      (c_inliers c, c_model c, (PrimFloat.sqrt (c_threshold c), c_nfa c), g')
  | None => ([], model, (infinity, infinity), g')
  end.

(** The putative matches laid out as the columns of the point matrices are:
    the descriptor types in their order, each a contiguous block of its
    matches. *)
Definition putative_block (putative : MatchesPerDescType)
    (d : EImageDescriberType) : list (nat * IndMatch) :=
  (fun m => (d, m)) <$> default [] (putative !! d).

Definition putative_columns (putative : MatchesPerDescType)
    (descTypes : list EImageDescriberType) : list (nat * IndMatch) :=
  descTypes ≫= putative_block putative.

(** The exported position of feature [idx]. *)
Definition feature_column (cam : option IntrinsicBase)
    (feats : list PointFeature) (idx : nat) : outcome Vec2 :=
  match feats !! idx with
  | Some f => Returned (exported_column cam f)
  | None => Thrown out_of_range
  end.

Definition match_columns (r : RegionsPerView) (pair : Pair)
    (cam_I cam_J : option IntrinsicBase) (dm : nat * IndMatch)
    : outcome (Vec2 * Vec2) :=
  regions_I ← getRegions r pair.1 dm.1;
  regions_J ← getRegions r pair.2 dm.1;
  a ← feature_column cam_I (GetRegionsPositions regions_I) (_i dm.2);
  b ← feature_column cam_J (GetRegionsPositions regions_J) (_j dm.2);
  Returned (a, b).

(** Modelled from the spec: [MatchesPairToMat] (Geometric_Filter_utils.hpp is
    not part of the sources at hand), section 3: "two equal-width matrices of
    2D coordinates, column i of xI paired with column i of xJ; derived from a
    correspondence set and the two images' feature positions", undistorted as
    in section 4.1, of "width = total correspondence count across all
    descriptor types used".  A view, a region or a feature that is missing
    throws. *)
Definition spec_MatchesPairToMat (pair : Pair) (putative : MatchesPerDescType)
    (sfmData : SfM_Data) (r : RegionsPerView)
    (descTypes : list EImageDescriberType) : outcome (Mat * Mat) :=
  view_I ← map_at (GetViews sfmData) pair.1;
  view_J ← map_at (GetViews sfmData) pair.2;
  let cam_I := intrinsic_of sfmData view_I in
  let cam_J := intrinsic_of sfmData view_J in
  cols ← mapM (match_columns r pair cam_I cam_J)
            (putative_columns putative descTypes);
  Returned (cols.*1, cols.*2).


(** The output with a list for every descriptor type of the putative
    matches. *)
Definition keyed_like (putative out : MatchesPerDescType)
    : MatchesPerDescType :=
  out ∪ ((fun _ : list IndMatch => @nil IndMatch) <$> putative).

(** Modelled from the spec: [copyInlierMatches] (Geometric_Filter_utils.hpp
    is not part of the sources at hand), "fill geometricInliersPerType with
    inliers from putativeMatchesPerType": the inlier indices, which point
    into the columns of the point matrices, are "projected back into
    per-descriptor-type correspondences", and the result is "an inlier
    correspondence set with the same keying as the input" (section 6): it
    has a list for every descriptor type of the putative matches, empty
    when the type holds no inlier.  An index past the last column names no
    match. *)
Definition spec_copyInlierMatches (inliers : list nat)
    (putative : MatchesPerDescType) (descTypes : list EImageDescriberType)
    (out : MatchesPerDescType) : MatchesPerDescType :=
  foldl (fun out globalInlierIndex =>
           match putative_columns putative descTypes !! globalInlierIndex with
           | Some (descType, m) => push_back_at descType m out
           | None => out
           end)
        (keyed_like putative out) inliers.

#[global] Instance spec_EstimationEnv `{EstimatorStrategy}
    : EstimationEnv RegionsPerView := {
  Rng := Seed;
  est_provider := RegionsPerView_provider;
  MatchesPairToMat := spec_MatchesPairToMat;
  ACRANSAC := spec_ACRANSAC;
  copyInlierMatches := spec_copyInlierMatches
}.

(** ** The deduplication, modelled from the specification *)

(** The pixel coordinates a match stands for in the two images. *)
Definition match_xy (featsI featsJ : list PointFeature) (m : IndMatch)
    : option Vec2 * option Vec2 :=
  (coords <$> featsI !! _i m, coords <$> featsJ !! _j m).

Definition Vec2_eqb (a b : Vec2) : bool :=
  PrimFloat.eqb a.1 b.1 && PrimFloat.eqb a.2 b.2.

Definition xy_eqb (a b : option Vec2) : bool :=
  match a, b with
  | Some u, Some v => Vec2_eqb u v
  | None, None => true
  | _, _ => false
  end.

Definition same_xy (featsI featsJ : list PointFeature) (m m' : IndMatch) : bool :=
  xy_eqb (match_xy featsI featsJ m).1 (match_xy featsI featsJ m').1
  && xy_eqb (match_xy featsI featsJ m).2 (match_xy featsI featsJ m').2.

Fixpoint dedup_xy (featsI featsJ : list PointFeature)
    (seen : list IndMatch) (l : list IndMatch) : list IndMatch :=
  match l with
  | [] => []
  | m :: rest =>
      if existsb (same_xy featsI featsJ m) seen
      then dedup_xy featsI featsJ seen rest
      else m :: dedup_xy featsI featsJ (m :: seen) rest
  end.

(** Modelled from the spec: [IndMatchDecorator<float>::getDeduplicated]
    (indMatchDecoratorXY.hpp is not part of the sources at hand), "duplicates
    that reduce to identical (x,y) pixel coordinates in both images are
    removed via a deduplication pass that compares pixel coordinates (not
    match indices)": of the matches with the same coordinates in both images
    the first one stays. *)
Definition spec_getDeduplicated (matches : list IndMatch)
    (featsI featsJ : list PointFeature) : list IndMatch :=
  dedup_xy featsI featsJ [] matches.

(** ** Predicates of the statements *)

(** The ways through [Robust_estimation]: the early return, the throw-free
    run that fails on the inlier count, and the success. *)
Inductive estimation_path {T : Type} `{EstimationEnv T}
    (self : GeometricFilter_HMatrix_AC) (sfmData : SfM_Data)
    (regionsPerView : T) (pairIndex : Pair)
    (putative : gmap nat (list IndMatch)) (g : Rng)
    : estimation_exit Rng -> Prop :=
| path_no_common_type :
    getCommonDescTypes regionsPerView pairIndex = [] →
    estimation_path self sfmData regionsPerView pairIndex putative g
      {| est_ret := false; est_self := self; est_out := ∅;
         est_inliers := []; est_rng := g |}
| path_estimated x_I x_J view_i view_j inliers H ACRansacOut g' :
    getCommonDescTypes regionsPerView pairIndex ≠ [] →
    MatchesPairToMat pairIndex putative sfmData regionsPerView
      (getCommonDescTypes regionsPerView pairIndex) = Returned (x_I, x_J) →
    GetViews sfmData !! pairIndex.1 = Some view_i →
    GetViews sfmData !! pairIndex.2 = Some view_j →
    ACRANSAC
      {| x1 := x_I; w1 := ui_width view_i; h1 := ui_height view_i;
         x2 := x_J; w2 := ui_width view_j; h2 := ui_height view_j;
         bPointToLine := false |}
      (m_stIteration self) (m_H self) (Square (m_dPrecision self)) g
    = (inliers, H, ACRansacOut, g') →
    estimation_path self sfmData regionsPerView pairIndex putative g
      (if too_few_inliers (length inliers) then
         {| est_ret := false; est_self := set_m_H self H; est_out := ∅;
            est_inliers := []; est_rng := g' |}
       else
         {| est_ret := true;
            est_self := set_m_dPrecision_robust (set_m_H self H) ACRansacOut.1;
            est_out := copyInlierMatches inliers putative
                         (getCommonDescTypes regionsPerView pairIndex) ∅;
            est_inliers := inliers; est_rng := g' |}).

(** The inliers of a candidate are distinct indices of points of the
    kernel. *)
Definition inliers_in_range (n : nat) (inliers : list nat) : Prop :=
  NoDup inliers ∧ Forall (fun i => i < n) inliers.

Definition candidate_in_range (n : nat) (best : option candidate) : Prop :=
  ∀ c, best = Some c → inliers_in_range n (c_inliers c).

(** ** A strategy and scenes to run the filter on *)

(** The asymmetric error of a pair of points under a homography: the squared
    distance of the second point to the image of the first. *)
Definition apply_H (H : Mat3) (p : Vec2) : Vec2 :=
  let '((a, b, c), (d, e, f), (g, h, i)) := H in
  let '(x, y) := p in
  let w := (g * x + h * y + i)%float in
  ((a * x + b * y + c) / w, (d * x + e * y + f) / w)%float.

Definition AsymmetricError (H : Mat3) (p q : Vec2) : double :=
  let '(u, v) := apply_H H p in
  ((u - q.1) * (u - q.1) + (v - q.2) * (v - q.2))%float.

(** A minimal solver for examples: the translation that maps the first
    point of the sample onto its partner. *)
Definition translation_solver (sample : list (Vec2 * Vec2)) : list Mat3 :=
  match sample with
  | (p, q) :: _ =>
      [((1, 0, q.1 - p.1), (0, 1, q.2 - p.2), (0, 0, 1))%float]
  | [] => []
  end.

Definition sample_strategy : EstimatorStrategy := {|
  Seed := nat;
  UniformSample := fun sizeSample n g =>
    ((fun i => (g + i) mod n) <$> seq 0 sizeSample, S g);
  Solve := translation_solver;
  Error := AsymmetricError;
  NFA := fun _ _ residual => residual
|}.

(** Guided matching for examples: every pair of points within the tolerance
    under the model. *)
Definition all_pairs_within (H : Mat3) (x_I x_J : Mat) (tol : double)
    : list IndMatch :=
  '(i, p) ← imap pair x_I;
  '(j, q) ← imap pair x_J;
  if PrimFloat.ltb (AsymmetricError H p q) tol
  then [{| _i := i; _j := j |}] else [].

Definition sample_matching : MatchingEnv := {|
  GuidedMatching := all_pairs_within;
  GuidedMatching_regions := fun H cam_I regions_I cam_J regions_J tol ratio matches =>
    map_imap (fun d rI =>
      rJ ← regions_J !! d;
      Some (all_pairs_within H
              (createMatricesWithUndistortFeatures cam_I (GetRegionsPositions rI))
              (createMatricesWithUndistortFeatures cam_J (GetRegionsPositions rJ))
              tol)) regions_I ∪ matches;
  getDeduplicated := spec_getDeduplicated
|}.

Definition pt (v w : double) : PointFeature := {| coords := (v, w) |}.

Definition two_features : list PointFeature := [pt 1 2; pt 3 4]%float.

Definition twin_features_I : list PointFeature :=
  [pt 0 0; pt 0 0; pt 1 1]%float.
Definition twin_features_J : list PointFeature :=
  [pt 5 5; pt 5 5]%float.

Definition diagonal : list PointFeature :=
  (fun v => pt v v) <$> [0; 1; 2; 3; 4; 5; 6; 7; 8; 9; 10]%float.

Definition identity_matches : list IndMatch :=
  (fun i => {| _i := i; _j := i |}) <$> seq 0 11.

(** Two views of the same size without cameras.  Descriptor type 0 has the
    eleven points of the diagonal in both views; descriptor type 1 has one
    point per view, fifty pixels apart. *)
Definition scene : SfM_Data := {|
  views := {[ 0 := {| ui_width := 640; ui_height := 480; id_intrinsic := 0 |};
              1 := {| ui_width := 640; ui_height := 480; id_intrinsic := 0 |} ]};
  intrinsics := ∅
|}.

Definition scene_regions : gmap nat (gmap nat Regions) :=
  {[ 0 := {[ 0 := {| GetRegionsPositions := diagonal; Descriptors := [] |};
             1 := {| GetRegionsPositions := [pt 0%float 0%float]; Descriptors := [] |} ]};
     1 := {[ 0 := {| GetRegionsPositions := diagonal; Descriptors := [] |};
             1 := {| GetRegionsPositions := [pt 50%float 50%float]; Descriptors := [] |} ]} ]}.

Definition scene_putative : gmap nat (list IndMatch) :=
  {[ 0 := identity_matches; 1 := [{| _i := 0; _j := 0 |}] ]}.

(** A scene without views. *)
Definition empty_scene : SfM_Data := {| views := ∅; intrinsics := ∅ |}.

(** A camera that shifts every pixel by one half. *)
Definition half_pixel_camera : IntrinsicBase := {|
  isValid := true;
  get_ud_pixel := fun p => (p.1 + 0.5, p.2 + 0.5)%float
|}.

Definition run_estimation (self : GeometricFilter_HMatrix_AC)
    (putative : gmap nat (list IndMatch)) (g : nat) :=
  @Robust_estimation _ (@spec_EstimationEnv sample_strategy)
    self scene scene_regions (0, 1) putative ∅ g.

(** The exit of the estimation on [scene] from the default filter with the
    generator at 0, and the exit of a second estimation on the same object
    without putative matches. *)
Definition estimated_filter : GeometricFilter_HMatrix_AC := {|
  m_dPrecision := infinity;
  m_stIteration := 1024;
  m_H := Mat3_Identity;
  m_dPrecision_robust := 0%float
|}.

Definition estimated_exit : estimation_exit nat := {|
  est_ret := true;
  est_self := estimated_filter;
  est_out := {[ 0 := identity_matches; 1 := [] ]};
  est_inliers := seq 1 11;
  est_rng := 1024
|}.

Definition failed_exit : estimation_exit nat := {|
  est_ret := false;
  est_self := estimated_filter;
  est_out := ∅;
  est_inliers := [];
  est_rng := 2048
|}.

Definition stale_matches : gmap nat (list IndMatch) :=
  {[ 0 := [{| _i := 0; _j := 0 |}] ]}.

Definition run_guided_matching (self : GeometricFilter_HMatrix_AC)
    (dDistanceRatio : double) (matches : gmap nat (list IndMatch)) :=
  @Geometry_guided_matching sample_matching self scene scene_regions (0, 1)
    dDistanceRatio matches.




(** Collaborators for an example: an estimator that writes a doubled
    identity into the model slot before it reports five inliers. *)
Definition doubled_identity : Mat3 :=
  ((2, 0, 0), (0, 2, 0), (0, 0, 1))%float.

Definition writing_env : EstimationEnv (gmap nat (gmap nat Regions)) := {|
  Rng := unit;
  est_provider := RegionsPerView_provider;
  MatchesPairToMat := fun _ _ _ _ _ => Returned ([], []);
  ACRANSAC := fun _ _ _ _ g =>
    (seq 0 5, doubled_identity, (1%float, 0%float), g);
  copyInlierMatches := fun _ _ _ out => out
|}.

(** Regions without a common descriptor type: view 0 has type 0 only, view 1
    has type 1 only. *)
Definition disjoint_regions : gmap nat (gmap nat Regions) :=
  {[ 0 := {[ 0 := {| GetRegionsPositions := diagonal; Descriptors := [] |} ]};
     1 := {[ 1 := {| GetRegionsPositions := diagonal; Descriptors := [] |} ]} ]}.

(** * The color harmonization engine ([colorHarmonizeEngineGlobal.cpp])

    The engine reads and writes files and solves linear programs; what
    follows are the computations of its constructor, of [Process] and of
    [CleanGraph] on the maps, sets and indices it keeps in memory. *)

(** [matching::PairwiseMatches]: the matches of every pair of views. *)
Abbreviation PairwiseMatches :=
  (gmap (nat * nat) (gmap nat (list IndMatch))) (only parsing).

(** ** The choices of the constructor (lines 75-96) *)

(** The conversion of an [int] to a [size_t] of 64 bits. *)
Definition to_size_t (i : Z) : Z := (i mod 2 ^ 64)%Z.

(** [imgRef < 0 || imgRef >= _vec_fileNames.size()]: the comparison with
    the size is the one of two [size_t]. *)
Definition reference_rejected (nbFileNames imgRef : Z) : bool :=
  (imgRef <? 0)%Z || (nbFileNames <=? to_size_t imgRef)%Z.

(** [selectionMethod < 0 || selectionMethod > 2] *)
Definition selection_rejected (selectionMethod : Z) : bool :=
  (selectionMethod <? 0)%Z || (2 <? selectionMethod)%Z.

(** [while (rejected(v)) cin >> v;] on the values the input still holds:
    the value that leaves the loop and the rest of the input, or nothing
    when the input ends before a value is accepted. *)
Fixpoint ask_until {A : Type} (rejected : A -> bool) (v : A) (input : list A)
    : option (A * list A) :=
  match input with
  | [] => if rejected v then None else Some (v, [])
  | x :: rest =>
      if rejected v then ask_until rejected x rest else Some (v, input)
  end.

(** The two loops in a row, for a file list of [nbFileNames] names: the
    reference image and the selection method the constructor stores. *)
Definition constructor_choices (nbFileNames imgRef selectionMethod : Z)
    (input : list Z) : option (Z * Z) :=
  '(imgRef, input) ← ask_until (reference_rejected nbFileNames) imgRef input;
  '(selectionMethod, _) ← ask_until selection_rejected selectionMethod input;
  Some (imgRef, selectionMethod).

(** ** [Process]: the pairs with poor support (lines 130-143) *)

(** The loop walks the map and erases the entry under the iterator when it
    has fewer than 120 matches. *)
Definition remove_poor_support (pairwiseMatches : PairwiseMatches)
    : PairwiseMatches :=
  foldl (fun m matchesPerView =>
           if getNbAllMatches matchesPerView.2 <? 120
           then delete matchesPerView.1 m else m)
        pairwiseMatches (map_to_list pairwiseMatches).

(** ** [Process]: the remaining cameras (lines 163-187) *)

(** The views that occur in a pair (lines 169-180). *)
Definition set_indeximage (pairwiseMatches : PairwiseMatches) : gset nat :=
  foldl (fun s (pair : nat * nat) => {[pair.2]} ∪ ({[pair.1]} ∪ s))
        ∅ (map_to_list pairwiseMatches).*1.

(** A [std::set] of indices is walked in ascending order. *)
Definition set_iteration (s : gset nat) : list nat :=
  merge_sort le (elements s).

(** The loop of lines 182-187: [k] is the distance of the iterator to the
    beginning of the set; the pair holds [map_cameraIndexTocameraNode] and
    [map_cameraNodeToCameraIndex]. *)
Fixpoint index_cameras (nodes : list nat) (k : nat)
    (maps : gmap nat nat * gmap nat nat) : gmap nat nat * gmap nat nat :=
  match nodes with
  | [] => maps
  | node :: rest =>
      index_cameras rest (S k) (<[k := node]> maps.1, <[node := k]> maps.2)
  end.

Definition camera_maps (s : gset nat) : gmap nat nat * gmap nat nat :=
  index_cameras (set_iteration s) 0 (∅, ∅).

(** [m[key]] on a [std::map<size_t, size_t>]: the value, which is 0 for a
    new key, and the map, which then has the key. *)
Definition map_subscript (m : gmap nat nat) (key : nat) : nat * gmap nat nat :=
  match m !! key with
  | Some v => (v, m)
  | None => (0, <[key := 0]> m)
  end.

(** [vec_indexToFix] (lines 325-326). *)
Definition vec_indexToFix (map_cameraNodeToCameraIndex : gmap nat nat)
    (imgRef : nat) : list nat :=
  [(map_subscript map_cameraNodeToCameraIndex imgRef).1].

(** The size of the solution vectors (lines 330-332) and the positions of
    the gain and of the offset that the loop of lines 397-443 reads for
    every remaining camera: the image, the gain index, the offset index. *)
Definition solution_size (nbFileNames : nat) : nat := nbFileNames * 2 + 1.

Definition solution_reads (s : gset nat) : list (nat * nat * nat) :=
  imap (fun nodeIndex imaNum => (imaNum, nodeIndex * 2, nodeIndex * 2 + 1))
       (set_iteration s).

(** ** [CleanGraph]: the search of the largest component (lines 526-538) *)

(** The components come in the order of their keys; [count] starts at the
    least [size_t] and [largest] at the end iterator. *)
Fixpoint search_largest_cc (subgraphs : list (nat * gset nat)) (count : nat)
    (largest : option (nat * gset nat)) : option (nat * gset nat) :=
  match subgraphs with
  | [] => largest
  | iter :: rest =>
      if count <? size iter.2
      then search_largest_cc rest (size iter.2) (Some iter)
      else search_largest_cc rest count largest
  end.

Definition largest_cc (map_subgraphs : list (nat * gset nat))
    : option (nat * gset nat) :=
  search_largest_cc map_subgraphs 0 None.

(** Pairwise matches for examples: the pair (0, 1) has 120 matches, the
    pair (1, 3) has 11. *)
Definition many_matches : gmap nat (list IndMatch) :=
  {[ 0 := replicate 120 {| _i := 0; _j := 0 |} ]}.

Definition example_pairs : gmap (nat * nat) (gmap nat (list IndMatch)) :=
  {[ (0, 1) := many_matches; (1, 3) := {[ 0 := identity_matches ]} ]}.

(** * The CCTag structure program
      ([main_ComputeCCTagStructureFromKnownPoses.cpp])

    The program loads a scene and its regions, triangulates and saves; what
    follows are the computations of [main] on the maps and sets it builds
    in between. *)

(** ** The connected views (lines 146-151) *)

(** [connectedViews[p.first].insert(p.second)] and the same the other way
    round; the subscript of a new key starts from the empty set. *)
Definition connect_views (connectedViews : gmap nat (gset nat))
    (p : nat * nat) : gmap nat (gset nat) :=
  let connectedViews :=
    <[p.1 := {[p.2]} ∪ default ∅ (connectedViews !! p.1)]> connectedViews in
  <[p.2 := {[p.1]} ∪ default ∅ (connectedViews !! p.2)]> connectedViews.

Definition connectedViews_of (viewPairs : gset (nat * nat))
    : gmap nat (gset nat) :=
  foldl connect_views ∅ (elements viewPairs).

(** ** The first free landmark index (lines 216-224) *)

(** [IndexT] is an unsigned integer of 32 bits: [i + 1] wraps. *)
Definition IndexT_succ (i : Z) : Z := ((i + 1) mod 2 ^ 32)%Z.

Definition landmarkMaxIndex (sKeepSift : bool) (landmarkIds : list Z) : Z :=
  if sKeepSift then
    foldl (fun landmarkMaxIndex id => Z.max (IndexT_succ id) landmarkMaxIndex)
          0%Z landmarkIds
  else 0%Z.

(** ** From the CCTags to landmarks (lines 226-258) *)

(** A landmark: its position, which this program leaves to the
    triangulation, and its observations per view.  The type of an
    observation is a parameter; [obs0] stands for the observation a
    subscript creates for a new key. *)
Record Landmark (Obs : Type) : Type := {
  X : Vec3;
  observations : gmap nat Obs
}.
Arguments X {Obs} _.
Arguments observations {Obs} _.

Definition default_Landmark (Obs : Type) : Landmark Obs :=
  {| X := (0%float, 0%float, 0%float); observations := ∅ |}.

(** [cctagSfmData.structure] and [landmarkIndex]. *)
Record conversion_state (Obs : Type) : Type := {
  structure : gmap Z (Landmark Obs);
  landmarkIndex : Z
}.
Arguments structure {Obs} _.
Arguments landmarkIndex {Obs} _.

(** [cctagSubGroup] (lines 233-241): the view under [begin()] and the views
    connected to it among the views that still have the tag.  The subscript
    [connectedViews[obsViewId]] may add the key with an empty set, and
    [cctagsObservations[..]] below may add a key with [obs0]; every read of
    these two maps is a subscript, so the additions are not observable
    here and the maps are not threaded. *)
Definition cctagSubGroup (connectedViews : gmap nat (gset nat))
    (viewsWithSameCCTagId : gset nat) (obsViewId : nat) : gset nat :=
  {[obsViewId]}
  ∪ (default ∅ (connectedViews !! obsViewId) ∩ viewsWithSameCCTagId).

(** The loop of lines 248-251 on the landmark under the reference. *)
Definition add_observations {Obs : Type} (obs0 : Obs)
    (cctagsObservations : gmap (nat * nat) Obs) (cctagId : nat)
    (landmark : Landmark Obs) (cctagSubGroup : gset nat) : Landmark Obs :=
  foldl (fun landmark iObsViewId =>
           {| X := X landmark;
              observations :=
                <[iObsViewId :=
                    default obs0 (cctagsObservations !! (cctagId, iObsViewId))]>
                  (observations landmark) |})
        landmark (set_iteration cctagSubGroup).

(** One round of the [while] loop (lines 231-257): the state and the views
    that still have to be grouped. *)
Definition split_round {Obs : Type} (obs0 : Obs)
    (connectedViews : gmap nat (gset nat))
    (cctagsObservations : gmap (nat * nat) Obs) (cctagId : nat)
    (obsViewId : nat) (viewsWithSameCCTagId : gset nat)
    (st : conversion_state Obs) : conversion_state Obs * gset nat :=
  let group := cctagSubGroup connectedViews viewsWithSameCCTagId obsViewId in
  let st :=
    if 1 <? size group then
      let landmark :=
        default (default_Landmark Obs) (structure st !! landmarkIndex st) in
      {| structure :=
           <[landmarkIndex st :=
               add_observations obs0 cctagsObservations cctagId landmark group]>
             (structure st);
         landmarkIndex := IndexT_succ (landmarkIndex st) |}
    else st in
  (st, viewsWithSameCCTagId ∖ group).

(** The [while] loop, with fuel for its rounds. *)
Fixpoint split_groups {Obs : Type} (obs0 : Obs) (fuel : nat)
    (connectedViews : gmap nat (gset nat))
    (cctagsObservations : gmap (nat * nat) Obs) (cctagId : nat)
    (viewsWithSameCCTagId : gset nat) (st : conversion_state Obs)
    : conversion_state Obs * gset nat :=
  match fuel with
  | 0 => (st, viewsWithSameCCTagId)
  | S fuel =>
      match set_iteration viewsWithSameCCTagId with
      | [] => (st, viewsWithSameCCTagId)
      | obsViewId :: _ =>
          let '(st, views) :=
            split_round obs0 connectedViews cctagsObservations cctagId
              obsViewId viewsWithSameCCTagId st in
          split_groups obs0 fuel connectedViews cctagsObservations cctagId
            views st
      end
  end.

(** The body of the outer loop for one tag: as many rounds as the tag has
    views are enough (see [split_groups_exhausts]). *)
Definition convert_tag {Obs : Type} (obs0 : Obs)
    (connectedViews : gmap nat (gset nat))
    (cctagsObservations : gmap (nat * nat) Obs)
    (st : conversion_state Obs) (cctagVisibility : nat * gset nat)
    : conversion_state Obs :=
  (split_groups obs0 (size cctagVisibility.2) connectedViews
     cctagsObservations cctagVisibility.1 cctagVisibility.2 st).1.

(** A [std::map] with index keys is walked in the order of its keys. *)
Definition map_iteration {V : Type} (m : gmap nat V) : list (nat * V) :=
  omap (fun k => (fun v => (k, v)) <$> m !! k) (set_iteration (dom m)).

(** The outer loop (lines 226-258), from the empty structure of the new
    scene. *)
Definition cctags_to_landmarks {Obs : Type} (obs0 : Obs)
    (landmarkMaxIndex : Z) (connectedViews : gmap nat (gset nat))
    (cctagsVisibility : gmap nat (gset nat))
    (cctagsObservations : gmap (nat * nat) Obs) : conversion_state Obs :=
  foldl (convert_tag obs0 connectedViews cctagsObservations)
        {| structure := ∅; landmarkIndex := landmarkMaxIndex |}
        (map_iteration cctagsVisibility).

(** The views of a landmark. *)
Definition landmark_views {Obs : Type} (landmark : Landmark Obs) : gset nat :=
  dom (observations landmark).

(** Views for examples: 1 is connected to 2 and to 5. *)
Definition example_view_pairs : gset (nat * nat) := {[ (1, 2); (5, 1) ]}.

Definition example_visibility : gset nat := {[ 1; 2; 5; 7 ]}.

(** What the statements about the conversion say of a landmark: it has the
    views of one group, at least two, all of them among [within]; the least
    of them is connected to each of the others; its observations are the
    ones recorded for the tag in these views. *)
Definition grouped_landmark {Obs : Type} (obs0 : Obs)
    (connectedViews : gmap nat (gset nat))
    (cctagsObservations : gmap (nat * nat) Obs) (cctagId : nat)
    (within : gset nat) (landmark : Landmark Obs) : Prop :=
  2 ≤ size (landmark_views landmark)
  ∧ landmark_views landmark ⊆ within
  ∧ (∃ first, first ∈ landmark_views landmark
       ∧ ∀ v, v ∈ landmark_views landmark →
              first ≤ v
              ∧ (v = first ∨ v ∈ default ∅ (connectedViews !! first)))
  ∧ (∀ v, v ∈ landmark_views landmark →
          observations landmark !! v
          = Some (default obs0 (cctagsObservations !! (cctagId, v)))).

(** A state in which [n] views can be converted: the next index and the
    [n] after it are indices, and no landmark has one of them yet. *)
Definition fresh_state {Obs : Type} (st : conversion_state Obs) (n : nat)
    : Prop :=
  (0 ≤ landmarkIndex st)%Z
  ∧ (landmarkIndex st + Z.of_nat n < 2 ^ 32)%Z
  ∧ ∀ i landmark, structure st !! i = Some landmark → (i < landmarkIndex st)%Z.

(** The state [st] and the views [rem] still to be grouped, after some
    rounds on the views [all] from the state [st0]. *)
Definition groups_invariant {Obs : Type} (obs0 : Obs)
    (connectedViews : gmap nat (gset nat))
    (cctagsObservations : gmap (nat * nat) Obs) (cctagId : nat)
    (all : gset nat) (st0 st : conversion_state Obs) (rem : gset nat) : Prop :=
  rem ⊆ all
  ∧ (landmarkIndex st0 ≤ landmarkIndex st)%Z
  ∧ (2 * (landmarkIndex st - landmarkIndex st0) + Z.of_nat (size rem)
     ≤ Z.of_nat (size all))%Z
  ∧ (∀ i, (i < landmarkIndex st0 ∨ landmarkIndex st ≤ i)%Z →
          structure st !! i = structure st0 !! i)
  ∧ (∀ i, (landmarkIndex st0 ≤ i < landmarkIndex st)%Z →
          ∃ landmark, structure st !! i = Some landmark
            ∧ grouped_landmark obs0 connectedViews cctagsObservations cctagId
                (all ∖ rem) landmark)
  ∧ (∀ i j landmark landmark',
       i ≠ j →
       (landmarkIndex st0 ≤ i < landmarkIndex st)%Z →
       (landmarkIndex st0 ≤ j < landmarkIndex st)%Z →
       structure st !! i = Some landmark →
       structure st !! j = Some landmark' →
       landmark_views landmark ## landmark_views landmark').

(** The number of pairs of a tag and a view that sees it: the rounds of the
    [while] loop over all tags are at most as many. *)
Definition nb_visibilities (cctagsVisibility : gmap nat (gset nat)) : nat :=
  sum_list ((fun cctagVisibility : nat * gset nat => size cctagVisibility.2)
              <$> map_iteration cctagsVisibility).

(** An example with two tags. *)
Definition example_cctagsVisibility : gmap nat (gset nat) :=
  {[ 3 := example_visibility; 6 := {[ 2; 5 ]} ]}.

(** ** The database of all CCTags (lines 154-205) *)

(** [Observation(x, id_feat)]: the position of a feature in its image and
    its rank among the features of the view. *)
Record Observation : Set := { x : Vec2; id_feat : nat }.

(** What the loop calls and the sources at hand do not hold:
    [features::getCCTagId] with the value [UndefinedIndexT] it gives for a
    descriptor that is no CCTag, [SfM_Data::IsPoseAndIntrinsicDefined], and
    the test of the [dynamic_cast] to [SIFT_Regions]. *)
Class CCTagEnv : Type := {
  UndefinedIndexT : nat;
  getCCTagId : Descriptor -> nat;
  IsPoseAndIntrinsicDefined : SfM_Data -> View -> bool;
  is_SIFT_Regions : Regions -> bool
}.

(** The ways the loop ends early: [std::out_of_range] of a [std::map::at],
    the [std::runtime_error] of line 174, and the read of a descriptor past
    the end of [Descriptors()], which regions with fewer descriptors than
    features would cause at line 179. *)
Inductive database_error : Set :=
| std_out_of_range
| std_runtime_error
| read_past_the_end.

(** [cctagsVisibility] and [cctagsObservations]. *)
Definition database : Set :=
  gmap nat (gset nat) * gmap (nat * nat) Observation.

(** One round of the loop over the regions of a view (lines 179-187). *)
Definition add_region `{CCTagEnv} (viewId : nat) (siftRegions : Regions)
    (db : database) (i : nat) : database :=
  match Descriptors siftRegions !! i, GetRegionsPositions siftRegions !! i with
  | Some cctagDesc, Some feature =>
      let cctagId := getCCTagId cctagDesc in
      if decide (cctagId = UndefinedIndexT) then db
      else
        (<[cctagId := {[viewId]} ∪ default ∅ (db.1 !! cctagId)]> db.1,
         <[(cctagId, viewId) := {| x := coords feature; id_feat := i |}]> db.2)
  | _, _ => db
  end.

(** The loop over the regions of a view (lines 177-194); [RegionCount()] is
    the number of the features. *)
Definition add_regions `{CCTagEnv} (viewId : nat) (siftRegions : Regions)
    (db : database) : database :=
  foldl (add_region viewId siftRegions) db
        (seq 0 (length (GetRegionsPositions siftRegions))).

(** The body of the loop over the views (lines 163-203).  [debug] stands
    for [!sDebugOutputDir.empty()]: the export of line 199 writes a file and
    is left out, the [at] of line 198 before it is not.  A read past the end
    of the descriptors is undefined in C++, whatever the rounds before it
    did: the model tests for it before the loop over the regions. *)
Definition add_view `{CCTagEnv} (reconstructionSfmData : SfM_Data)
    (describerMethodType : nat) (debug : bool) (db : database)
    (regionForView : nat * gmap nat Regions) : database_error + database :=
  match GetViews reconstructionSfmData !! regionForView.1 with
  | None => inl std_out_of_range
  | Some view =>
      if negb (IsPoseAndIntrinsicDefined reconstructionSfmData view)
      then inr db
      else
        match regionForView.2 !! describerMethodType with
        | None => inl std_out_of_range
        | Some regions =>
            if negb (is_SIFT_Regions regions) then inl std_runtime_error
            else if length (Descriptors regions)
                    <? length (GetRegionsPositions regions)
            then inl read_past_the_end
            else
              let db := add_regions regionForView.1 regions db in
              if debug then
                match GetIntrinsics reconstructionSfmData
                      !! id_intrinsic view with
                | None => inl std_out_of_range
                | Some _ => inr db
                end
              else inr db
        end
  end.

(** The loop over the views (lines 161-204), from the two empty maps.  The
    views are taken in the order of their ids; the statements about the
    database hold for every order, they use only that no view comes
    twice. *)
Definition cctags_database `{CCTagEnv} (reconstructionSfmData : SfM_Data)
    (describerMethodType : nat) (debug : bool)
    (regionsPerView : gmap nat (gmap nat Regions))
    : database_error + database :=
  foldl (fun r regionForView =>
           match r with
           | inl e => inl e
           | inr db =>
               add_view reconstructionSfmData describerMethodType debug db
                 regionForView
           end)
        (inr (∅, ∅)) (map_iteration regionsPerView).

(** What the statements about the database say.  A view shows a tag: it is
    a reconstructed view of the scene, and one of its regions has the
    tag. *)
Definition tagged_view `{CCTagEnv} (reconstructionSfmData : SfM_Data)
    (describerMethodType : nat) (regionsPerView : gmap nat (gmap nat Regions))
    (cctagId viewId : nat) : Prop :=
  cctagId ≠ UndefinedIndexT
  ∧ ∃ view regionsPerDesc regions i cctagDesc,
      GetViews reconstructionSfmData !! viewId = Some view
      ∧ IsPoseAndIntrinsicDefined reconstructionSfmData view = true
      ∧ regionsPerView !! viewId = Some regionsPerDesc
      ∧ regionsPerDesc !! describerMethodType = Some regions
      ∧ i < length (GetRegionsPositions regions)
      ∧ Descriptors regions !! i = Some cctagDesc
      ∧ getCCTagId cctagDesc = cctagId.

(** An observation is the one of the last region with the tag among the
    first [n] regions. *)
Definition last_tagged_region `{CCTagEnv} (regions : Regions) (n : nat)
    (cctagId : nat) (obs : Observation) : Prop :=
  cctagId ≠ UndefinedIndexT
  ∧ id_feat obs < n
  ∧ (∃ cctagDesc feature,
       Descriptors regions !! id_feat obs = Some cctagDesc
       ∧ getCCTagId cctagDesc = cctagId
       ∧ GetRegionsPositions regions !! id_feat obs = Some feature
       ∧ x obs = coords feature)
  ∧ ∀ j cctagDesc, id_feat obs < j < n →
      Descriptors regions !! j = Some cctagDesc →
      getCCTagId cctagDesc ≠ cctagId.

(** An example: the low byte of a descriptor names the tag, 255 is no tag;
    every view of the scene counts as reconstructed. *)
Definition example_CCTagEnv : CCTagEnv := {|
  UndefinedIndexT := 255;
  getCCTagId := fun cctagDesc => default 255 (head cctagDesc);
  IsPoseAndIntrinsicDefined := fun _ _ => true;
  is_SIFT_Regions := fun _ => true
|}.

Definition example_regions (tags : list nat) : Regions := {|
  GetRegionsPositions :=
    (fun _ => {| coords := (1%float, 2%float) |}) <$> tags;
  Descriptors := (fun tag => [tag]) <$> tags
|}.

Definition example_scene : SfM_Data := {|
  views :=
    {[ 1 := {| ui_width := 4; ui_height := 3; id_intrinsic := 0 |};
       2 := {| ui_width := 4; ui_height := 3; id_intrinsic := 0 |} ]};
  intrinsics := ∅
|}.

Definition example_regionsPerView : gmap nat (gmap nat Regions) :=
  {[ 1 := {[ 7 := example_regions [3; 255; 3] ]};
     2 := {[ 7 := example_regions [255; 3] ]} ]}.

(** The database after the views [seen]: the two maps have the same keys,
    a view is under a tag when it is one of [seen] and shows the tag, and
    an observation is the one of the last region of its view with its
    tag. *)
Definition database_invariant `{CCTagEnv} (reconstructionSfmData : SfM_Data)
    (describerMethodType : nat) (regionsPerView : gmap nat (gmap nat Regions))
    (seen : gset nat) (db : database) : Prop :=
  (∀ cctagId viewId,
     is_Some (db.2 !! (cctagId, viewId))
     ↔ viewId ∈ default ∅ (db.1 !! cctagId))
  ∧ (∀ cctagId viewId,
       viewId ∈ default ∅ (db.1 !! cctagId)
       ↔ viewId ∈ seen
         ∧ tagged_view reconstructionSfmData describerMethodType
             regionsPerView cctagId viewId)
  ∧ (∀ cctagId viewId obs, db.2 !! (cctagId, viewId) = Some obs →
       ∃ regionsPerDesc regions,
         regionsPerView !! viewId = Some regionsPerDesc
         ∧ regionsPerDesc !! describerMethodType = Some regions
         ∧ last_tagged_region regions
             (length (GetRegionsPositions regions)) cctagId obs).

(** * Properties *)

(** ** The coordinate export *)

Section fill_loop_facts.
Variable f : PointFeature -> Vec2.

Lemma fill_loop_length (feats : list PointFeature) (i : nat) (m : Mat) :
  length (fill_loop f feats i m) = length m.
Proof.
  revert i m. induction feats as [|ft feats IH]; intros i m; [done|].
  cbn [fill_loop]. rewrite IH. apply length_insert.
Qed.

(** Columns outside of the window [i, i + length feats) are not touched. *)
Lemma fill_loop_outside (feats : list PointFeature) (i : nat) (m : Mat) (j : nat) :
  j < i ∨ i + length feats ≤ j →
  fill_loop f feats i m !! j = m !! j.
Proof.
  revert i m. induction feats as [|ft feats IH]; intros i m Hj; [done|].
  cbn [fill_loop length] in *. rewrite IH by lia.
  apply list_lookup_insert_ne. lia.
Qed.

(** Column [i + k] receives the image of the [k]-th feature. *)
Lemma fill_loop_inside (feats : list PointFeature) (i : nat) (m : Mat)
    (k : nat) (ft : PointFeature) :
  i + length feats ≤ length m →
  feats !! k = Some ft →
  fill_loop f feats i m !! (i + k) = Some (f ft).
Proof.
  revert i m k. induction feats as [|ft' feats IH]; intros i m k Hlen Hk; [done|].
  cbn [fill_loop length] in *. destruct k as [|k]; simpl in Hk.
  - injection Hk as ->. rewrite fill_loop_outside by lia.
    rewrite Nat.add_0_r. apply list_lookup_insert_eq. lia.
  - replace (i + S k) with (S i + k) by lia.
    apply IH; [|done]. unfold Mat in *. rewrite length_insert. lia.
Qed.

Lemma fill_loop_resize (feats : list PointFeature) :
  fill_loop f feats 0 (Mat_resize (length feats)) = f <$> feats.
Proof.
  apply list_eq. intros k. rewrite list_lookup_fmap.
  destruct (feats !! k) as [ft|] eqn:Hk; simpl.
  - apply (fill_loop_inside feats 0 _ k ft); [|done].
    unfold Mat_resize. rewrite length_replicate. lia.
  - apply lookup_ge_None in Hk. apply lookup_ge_None.
    rewrite fill_loop_length. unfold Mat_resize. by rewrite length_replicate.
Qed.
End fill_loop_facts.

Lemma fillMatricesWithUndistortFeatures_unfold (cam : option IntrinsicBase)
    (feats : list PointFeature) (m : Mat) :
  fillMatricesWithUndistortFeatures cam feats m
  = fill_loop (exported_column cam) feats 0 m.
Proof.
  unfold fillMatricesWithUndistortFeatures, exported_column.
  destruct cam as [c|]; [|done]. by destruct (isValid c).
Qed.

Lemma createMatricesWithUndistortFeatures_columns (cam : option IntrinsicBase)
    (feats : list PointFeature) :
  createMatricesWithUndistortFeatures cam feats = exported_column cam <$> feats.
Proof.
  unfold createMatricesWithUndistortFeatures.
  rewrite fillMatricesWithUndistortFeatures_unfold. apply fill_loop_resize.
Qed.

(** C6.  For every feature list and every output matrix with a column per
    feature, [fillMatricesWithUndistortFeatures] writes one column per
    feature, in input order, and leaves the size and the other columns of
    the matrix alone: with an absent camera, or one that reports itself
    invalid, column [i] is the raw coordinate pair of feature [i]; with a
    valid camera it is the undistorted pixel of feature [i]. *)
Theorem fillMatricesWithUndistortFeatures_spec (cam : option IntrinsicBase)
    (vec_feats : list PointFeature) (m : Mat) :
  length vec_feats ≤ length m →
  let m' := fillMatricesWithUndistortFeatures cam vec_feats m in
  length m' = length m
  ∧ (hasValidIntrinsics cam = false →
     ∀ i ft, vec_feats !! i = Some ft → m' !! i = Some (coords ft))
  ∧ (∀ c, cam = Some c → isValid c = true →
     ∀ i ft, vec_feats !! i = Some ft →
       m' !! i = Some (get_ud_pixel c (feat_x ft, feat_y ft)))
  ∧ (∀ i, length vec_feats ≤ i → m' !! i = m !! i).
Proof.
  intros Hlen m'. subst m'. rewrite fillMatricesWithUndistortFeatures_unfold.
  split; [apply fill_loop_length|]. split; [|split].
  - intros Hcam i ft Hi.
    rewrite (fill_loop_inside _ vec_feats 0 m i ft) by (done || lia).
    unfold exported_column. destruct cam as [c|]; [|done].
    simpl in Hcam. by rewrite Hcam.
  - intros c -> Hvalid i ft Hi.
    rewrite (fill_loop_inside _ vec_feats 0 m i ft) by (done || lia).
    unfold exported_column. by rewrite Hvalid.
  - intros i Hi. apply fill_loop_outside. lia.
Qed.

Lemma fillMatricesWithUndistortFeatures_spec_witness :
  2 ≤ 3
  ∧ fillMatricesWithUndistortFeatures (Some half_pixel_camera)
      two_features (Mat_resize 3) !! 1
    = Some (3.5, 4.5)%float.
Proof.
  split; [lia|].
  destruct (fillMatricesWithUndistortFeatures_spec (Some half_pixel_camera)
              two_features (Mat_resize 3)) as (_ & _ & Hvalid & _);
    [simpl; lia|].
  exact (Hvalid half_pixel_camera eq_refl eq_refl 1 (pt 3 4)%float eq_refl).
Defined.

(** ** [Robust_estimation] with any collaborators *)

Lemma too_few_inliers_le (size : nat) :
  too_few_inliers size = true ↔ size ≤ 10.
Proof.
  unfold too_few_inliers. rewrite Qle_bool_iff.
  unfold Qle, MINIMUM_SAMPLES, OPENMVG_MINIMUM_SAMPLES_COEF. simpl. lia.
Qed.

Lemma too_few_inliers_gt (size : nat) :
  too_few_inliers size = false ↔ 10 < size.
Proof.
  rewrite <- not_true_iff_false, too_few_inliers_le. lia.
Qed.

Lemma minimum_support_bound (size : nat) :
  (inject_Z (Z.of_nat MINIMUM_SAMPLES) * OPENMVG_MINIMUM_SAMPLES_COEF
   < inject_Z (Z.of_nat size))%Q ↔ 10 < size.
Proof.
  unfold Qlt, MINIMUM_SAMPLES, OPENMVG_MINIMUM_SAMPLES_COEF. simpl. lia.
Qed.

Lemma Robust_estimation_path {T : Type} `{EstimationEnv T}
    (self : GeometricFilter_HMatrix_AC) (sfmData : SfM_Data)
    (regionsPerView : T) (pairIndex : Pair)
    (putative out0 : gmap nat (list IndMatch)) (g : Rng)
    (e : estimation_exit Rng) :
  Robust_estimation self sfmData regionsPerView pairIndex putative out0 g
  = Returned e ↔
  estimation_path self sfmData regionsPerView pairIndex putative g e.
Proof.
  unfold Robust_estimation. split.
  - case_bool_decide as Hd.
    + intros [= <-]. by constructor.
    + destruct (MatchesPairToMat _ _ _ _ _) as [[x_I x_J]|] eqn:HM; [|done].
      simpl. unfold map_at, GetViews.
      destruct (views sfmData !! pairIndex.1) as [vi|] eqn:Hi; [|done].
      destruct (views sfmData !! pairIndex.2) as [vj|] eqn:Hj; [|done].
      simpl.
      destruct (ACRANSAC _ _ _ _ _) as [[[inl H'] out] g'] eqn:HA.
      intros He.
      assert (e = if too_few_inliers (length inl) then
         {| est_ret := false; est_self := set_m_H self H'; est_out := ∅;
            est_inliers := []; est_rng := g' |}
       else
         {| est_ret := true;
            est_self := set_m_dPrecision_robust (set_m_H self H') out.1;
            est_out := copyInlierMatches inl putative
                         (getCommonDescTypes regionsPerView pairIndex) ∅;
            est_inliers := inl; est_rng := g' |}) as ->
        by (destruct (too_few_inliers _); by injection He).
      by eapply path_estimated.
  - intros [Hd | x_I x_J vi vj inl H' out g' Hd HM Hi Hj HA].
    + by rewrite bool_decide_eq_true_2.
    + rewrite bool_decide_eq_false_2 by done. rewrite HM. simpl.
      unfold map_at. unfold GetViews in *. rewrite Hi, Hj. simpl. rewrite HA.
      by destruct (too_few_inliers _).
Qed.

(** C3.  Whenever [Robust_estimation] returns true, the number of inliers
    strictly exceeds 2.5 times the minimal sample size of the kernel, that
    is, it is above 10; whenever it returns false, the inlier set and the
    output are empty.  The outcome is decided by the inliers [ACRANSAC]
    reports: at most 10 of them make the call return false, more than 10
    make it return true with these inliers. *)
Theorem Robust_estimation_minimum_support {T : Type} `{EstimationEnv T}
    (self : GeometricFilter_HMatrix_AC) (sfmData : SfM_Data)
    (regionsPerView : T) (pairIndex : Pair)
    (putative out0 : gmap nat (list IndMatch)) (g : Rng)
    (e : estimation_exit Rng) :
  Robust_estimation self sfmData regionsPerView pairIndex putative out0 g
  = Returned e →
  (est_ret e = true →
     (inject_Z (Z.of_nat MINIMUM_SAMPLES) * OPENMVG_MINIMUM_SAMPLES_COEF
      < inject_Z (Z.of_nat (length (est_inliers e))))%Q
     ∧ 10 < length (est_inliers e))
  ∧ (est_ret e = false → est_inliers e = [] ∧ est_out e = ∅)
  ∧ (∀ x_I x_J view_i view_j,
       getCommonDescTypes regionsPerView pairIndex ≠ [] →
       MatchesPairToMat pairIndex putative sfmData regionsPerView
         (getCommonDescTypes regionsPerView pairIndex) = Returned (x_I, x_J) →
       GetViews sfmData !! pairIndex.1 = Some view_i →
       GetViews sfmData !! pairIndex.2 = Some view_j →
       let inliers :=
         (ACRANSAC
            {| x1 := x_I; w1 := ui_width view_i; h1 := ui_height view_i;
               x2 := x_J; w2 := ui_width view_j; h2 := ui_height view_j;
               bPointToLine := false |}
            (m_stIteration self) (m_H self) (Square (m_dPrecision self)) g).1.1.1 in
       (length inliers ≤ 10 → est_ret e = false)
       ∧ (10 < length inliers → est_ret e = true ∧ est_inliers e = inliers)).
Proof.
  intros Hrun. apply Robust_estimation_path in Hrun.
  destruct Hrun as [Hd | x_I x_J vi vj inl H' out g' Hd HM Hi Hj HA].
  - split; [done|]. split; [done|]. intros; congruence.
  - destruct (too_few_inliers (length inl)) eqn:Hfew; simpl.
    + apply too_few_inliers_le in Hfew.
      split; [done|]. split; [done|].
      intros ? ? ? ? _ HM' Hi' Hj'. rewrite HM in HM'. simplify_eq.
      rewrite HA. simpl.
      split; [done | lia].
    + apply too_few_inliers_gt in Hfew.
      split; [intros _; split; [by apply minimum_support_bound | done]|].
      split; [done|].
      intros ? ? ? ? _ HM' Hi' Hj'. rewrite HM in HM'. simplify_eq.
      rewrite HA. simpl.
      split; [lia | done].
Qed.

Lemma run_estimation_scene :
  run_estimation GeometricFilter_HMatrix_AC_default scene_putative 0
  = Returned estimated_exit.
Proof. vm_compute. reflexivity. Qed.

Lemma Robust_estimation_minimum_support_witness :
  run_estimation GeometricFilter_HMatrix_AC_default scene_putative 0
  = Returned estimated_exit
  ∧ 10 < length (est_inliers estimated_exit).
Proof.
  assert (run_estimation GeometricFilter_HMatrix_AC_default scene_putative 0
          = Returned estimated_exit) as Hrun by (vm_compute; reflexivity).
  split; [exact Hrun|].
  destruct (Robust_estimation_minimum_support _ _ _ _ _ _ _ _ Hrun)
    as (Htrue & _).
  apply Htrue. reflexivity.
Defined.

(** ** Counting matches *)

Lemma getNbAllMatches_empty : getNbAllMatches ∅ = 0.
Proof. unfold getNbAllMatches. apply map_fold_empty. Qed.

Lemma getNbAllMatches_insert_fresh (m : gmap nat (list IndMatch))
    (d : nat) (l : list IndMatch) :
  m !! d = None →
  getNbAllMatches (<[d := l]> m) = length l + getNbAllMatches m.
Proof.
  intros Hd. unfold getNbAllMatches.
  rewrite map_fold_insert_L; [done | intros; lia | done].
Qed.

Lemma getNbAllMatches_lookup (m : gmap nat (list IndMatch))
    (d : nat) (l : list IndMatch) :
  m !! d = Some l →
  getNbAllMatches m = length l + getNbAllMatches (delete d m).
Proof.
  intros Hd. rewrite <- (insert_delete_id m d l Hd) at 1.
  apply getNbAllMatches_insert_fresh, lookup_delete_eq.
Qed.




(** The matches of distinct descriptor types are part of all matches. *)
Lemma getNbMatches_sum_le (m : gmap nat (list IndMatch)) (ds : list nat) :
  NoDup ds →
  sum_list (getNbMatches m <$> ds) ≤ getNbAllMatches m.
Proof.
  intros Hnd. revert m.
  induction Hnd as [|d ds Hd Hnd IH]; intros m; [simpl; lia|].
  rewrite fmap_cons.
  change (getNbMatches m d + sum_list (getNbMatches m <$> ds)
          ≤ getNbAllMatches m).
  assert (getNbMatches m <$> ds = getNbMatches (delete d m) <$> ds) as ->.
  { apply list_fmap_ext. intros i d' Hd'. unfold getNbMatches.
    rewrite lookup_delete_ne; [done|]. intros ->.
    apply Hd. by eapply list_elem_of_lookup_2. }
  specialize (IH (delete d m)). unfold getNbMatches at 1.
  destruct (m !! d) as [l|] eqn:Hl; cbn [default from_option id length].
  - rewrite (getNbAllMatches_lookup m d l Hl). lia.
  - rewrite delete_id in * by done. lia.
Qed.

(** ** [Geometry_guided_matching] *)

(** C2.  The code at the failing input: a freshly constructed filter, whose
    robust precision is unbounded, called with an output parameter that
    holds a match.  The guard of line 188 skips the block and line 247
    counts the matches of the output as the caller passed it: the call
    returns true and the output holds the match, where the claim has false
    and an empty output.  On the same output the exit of lines 191-192,
    taken by a filter with a bounded precision on regions without a common
    descriptor type, returns false. *)
Lemma Geometry_guided_matching_unestimated_stale_output :
  m_dPrecision_robust GeometricFilter_HMatrix_AC_default = infinity
  ∧ run_guided_matching GeometricFilter_HMatrix_AC_default (-1)%float
      stale_matches
    = Returned {| gm_ret := true;
                  gm_self := GeometricFilter_HMatrix_AC_default;
                  gm_matches := stale_matches |}
  ∧ getNbAllMatches stale_matches = 1
  ∧ precision_is_bounded estimated_filter = true
  ∧ @Geometry_guided_matching sample_matching estimated_filter scene
      disjoint_regions (0, 1) (-1)%float stale_matches
    = Returned {| gm_ret := false; gm_self := estimated_filter;
                  gm_matches := stale_matches |}.
Proof.
  split; [reflexivity|]. split; [by vm_compute|]. split; [by vm_compute|].
  split; by vm_compute.
Qed.

(** The common descriptor types are distinct and have regions in both
    views. *)
Lemma getCommonDescTypes_NoDup (r : gmap nat (gmap nat Regions)) (pair : Pair) :
  NoDup (RegionsPerView_getCommonDescTypes r pair).
Proof.
  unfold RegionsPerView_getCommonDescTypes.
  apply NoDup_filter, NoDup_fst_map_to_list.
Qed.

Lemma getCommonDescTypes_regions (r : gmap nat (gmap nat Regions))
    (pair : Pair) (d : nat) :
  d ∈ RegionsPerView_getCommonDescTypes r pair →
  ∃ allI allJ rI rJ,
    r !! pair.1 = Some allI ∧ r !! pair.2 = Some allJ
    ∧ allI !! d = Some rI ∧ allJ !! d = Some rJ.
Proof.
  unfold RegionsPerView_getCommonDescTypes.
  rewrite list_elem_of_filter. intros [[rJ HJ] HI].
  apply list_elem_of_fmap in HI as [[d' rI] [-> HI]].
  apply elem_of_map_to_list in HI.
  destruct (r !! pair.1) as [allI|]; cbn [default from_option id fst] in HI;
    [|by rewrite lookup_empty in HI].
  destruct (r !! pair.2) as [allJ|]; cbn [default from_option id fst] in HJ;
    [|by rewrite lookup_empty in HJ].
  by exists allI, allJ, rI, rJ.
Qed.

Lemma getRegions_Returned (r : gmap nat (gmap nat Regions))
    (viewId d : nat) (all : gmap nat Regions) (regions : Regions) :
  r !! viewId = Some all → all !! d = Some regions →
  getRegions r viewId d = Returned regions.
Proof.
  intros Hv Hd. unfold getRegions, getAllRegions, map_at.
  rewrite Hv. simpl. by rewrite Hd.
Qed.

(** The loop over the descriptor types: each type of the list receives its
    own local matches, every other key of [matches] is as before. *)
Lemma guided_loop_spec `{MatchingEnv} (self : GeometricFilter_HMatrix_AC)
    (r : gmap nat (gmap nat Regions)) (viewId_I viewId_J : nat)
    (cam_I cam_J : option IntrinsicBase) (allI allJ : gmap nat Regions)
    (descTypes : list nat) (matches : gmap nat (list IndMatch)) :
  r !! viewId_I = Some allI → r !! viewId_J = Some allJ →
  (∀ d, d ∈ descTypes → is_Some (allI !! d) ∧ is_Some (allJ !! d)) →
  ∃ matches',
    guided_loop self r viewId_I viewId_J cam_I cam_J descTypes matches
    = Returned matches'
    ∧ (∀ d, d ∈ descTypes →
         ∃ rI rJ, allI !! d = Some rI ∧ allJ !! d = Some rJ
           ∧ matches' !! d
             = Some (guided_local_matches self cam_I cam_J rI rJ))
    ∧ (∀ d, d ∉ descTypes → matches' !! d = matches !! d).
Proof.
  intros HI HJ. revert matches.
  induction descTypes as [|d0 rest IH]; intros matches Hall.
  - exists matches. split; [done|]. split; [|done].
    intros d Hd. by apply elem_of_nil in Hd.
  - destruct (Hall d0) as [[rI HrI] [rJ HrJ]]; [left|].
    cbn [guided_loop].
    rewrite (getRegions_Returned r viewId_I d0 allI rI) by done.
    rewrite (getRegions_Returned r viewId_J d0 allJ rJ) by done.
    simpl.
    destruct (IH (<[d0 := guided_local_matches self cam_I cam_J rI rJ]> matches))
      as (matches' & Hrun & Hin & Hout).
    { intros d Hd. apply Hall. by right. }
    exists matches'. split; [done|]. split.
    + intros d Hd. destruct (decide (d ∈ rest)) as [Hr|Hr]; [by apply Hin|].
      apply elem_of_cons in Hd as [->|Hd]; [|done].
      exists rI, rJ. split; [done|]. split; [done|].
      rewrite Hout by done. apply lookup_insert_eq.
    + intros d Hd. apply not_elem_of_cons in Hd as [Hne Hd].
      rewrite Hout by done. by apply lookup_insert_ne.
Qed.

Lemma float_ge_zero_not_lt (r : double) :
  PrimFloat.leb 0%float r = true → PrimFloat.ltb r 0%float = false.
Proof.
  rewrite leb_spec, ltb_spec.
  replace (Prim2SF 0%float) with (S754_zero false) by reflexivity.
  unfold SFleb, SFltb.
  destruct (Prim2SF r) as [ [] | [] | | [] ? ? ]; simpl; congruence.
Qed.

(** C7.  Once the estimation has bounded the robust precision, and for a
    pair of registered views with a common descriptor type,
    [Geometry_guided_matching] returns, leaves the object alone, reports
    whether the output holds a match, and works in the mode the sign of
    [dDistanceRatio] selects.  Below zero: every common descriptor type
    receives, on its own, the matches [GuidedMatching] finds between the
    exported (undistorted) positions of its regions in the two views under
    [m_H] at the squared robust precision, deduplicated on the pixel
    coordinates of these regions; the other keys of the output are not
    touched; the ratio plays no other part.  At zero or above: the output is
    the one call of [GuidedMatching] on all the regions of both views, at the
    squared robust precision and the squared ratio. *)
Theorem Geometry_guided_matching_modes `{MatchingEnv}
    (self : GeometricFilter_HMatrix_AC) (sfmData : SfM_Data)
    (regionsPerView : gmap nat (gmap nat Regions)) (imageIdsPair : Pair)
    (dDistanceRatio : double) (matches : gmap nat (list IndMatch))
    (view_I view_J : View) :
  precision_is_bounded self = true →
  getCommonDescTypes regionsPerView imageIdsPair ≠ [] →
  views sfmData !! imageIdsPair.1 = Some view_I →
  views sfmData !! imageIdsPair.2 = Some view_J →
  let cam_I := intrinsic_of sfmData view_I in
  let cam_J := intrinsic_of sfmData view_J in
  ∃ e allRegions_I allRegions_J,
    Geometry_guided_matching self sfmData regionsPerView imageIdsPair
      dDistanceRatio matches = Returned e
    ∧ gm_self e = self
    ∧ gm_ret e = negb (getNbAllMatches (gm_matches e) =? 0)
    ∧ regionsPerView !! imageIdsPair.1 = Some allRegions_I
    ∧ regionsPerView !! imageIdsPair.2 = Some allRegions_J
    ∧ (PrimFloat.ltb dDistanceRatio 0%float = true →
       (∀ descType,
          descType ∈ getCommonDescTypes regionsPerView imageIdsPair →
          ∃ regions_I regions_J,
            allRegions_I !! descType = Some regions_I
            ∧ allRegions_J !! descType = Some regions_J
            ∧ gm_matches e !! descType
              = Some (getDeduplicated
                        (GuidedMatching (m_H self)
                           (exported_column cam_I <$> GetRegionsPositions regions_I)
                           (exported_column cam_J <$> GetRegionsPositions regions_J)
                           (Square (m_dPrecision_robust self)))
                        (GetRegionsPositions regions_I)
                        (GetRegionsPositions regions_J)))
       ∧ (∀ descType,
            descType ∉ getCommonDescTypes regionsPerView imageIdsPair →
            gm_matches e !! descType = matches !! descType))
    ∧ (PrimFloat.leb 0%float dDistanceRatio = true →
       gm_matches e
       = GuidedMatching_regions (m_H self) cam_I allRegions_I cam_J allRegions_J
           (Square (m_dPrecision_robust self)) (Square dDistanceRatio)
           matches).
Proof.
  intros Hbounded Hne HvI HvJ cam_I cam_J.
  unfold Geometry_guided_matching, guarded_block.
  change (getCommonDescTypes regionsPerView imageIdsPair)
    with (RegionsPerView_getCommonDescTypes regionsPerView imageIdsPair) in *.
  assert (∃ allI allJ, regionsPerView !! imageIdsPair.1 = Some allI
                       ∧ regionsPerView !! imageIdsPair.2 = Some allJ)
    as (allI & allJ & HI & HJ).
  { destruct (RegionsPerView_getCommonDescTypes regionsPerView imageIdsPair)
      as [|d ds] eqn:Hds; [done|].
    destruct (getCommonDescTypes_regions regionsPerView imageIdsPair d)
      as (allI & allJ & _ & _ & HI & HJ & _); [rewrite Hds; left|].
    by exists allI, allJ. }
  assert (∀ d, d ∈ RegionsPerView_getCommonDescTypes regionsPerView imageIdsPair →
               is_Some (allI !! d) ∧ is_Some (allJ !! d)) as Hregions.
  { intros d Hd.
    destruct (getCommonDescTypes_regions regionsPerView imageIdsPair d Hd)
      as (allI' & allJ' & rI & rJ & HI' & HJ' & HrI & HrJ).
    simplify_eq. eauto. }
  rewrite Hbounded.
  rewrite bool_decide_eq_false_2 by done.
  unfold map_at. rewrite HvI, HvJ. simpl. unfold guided_mode.
  fold cam_I. fold cam_J.
  destruct (PrimFloat.ltb dDistanceRatio 0%float) eqn:Hsign.
  - destruct (guided_loop_spec self regionsPerView imageIdsPair.1
                imageIdsPair.2 cam_I cam_J allI allJ
                (RegionsPerView_getCommonDescTypes regionsPerView imageIdsPair)
                matches HI HJ Hregions) as (matches' & Hrun & Hin & Hout).
    rewrite Hrun. simpl. eexists _, allI, allJ. split; [done|]. simpl.
    do 4 (split; [done|]). split.
    + intros _. split; [|done]. intros d Hd.
      destruct (Hin d Hd) as (rI & rJ & HrI & HrJ & Hd').
      exists rI, rJ. repeat (split; [done|]). rewrite Hd'.
      unfold guided_local_matches.
      by rewrite !createMatricesWithUndistortFeatures_columns.
    + intros Hge. apply float_ge_zero_not_lt in Hge. congruence.
  - unfold getAllRegions, map_at. rewrite HI, HJ. simpl.
    eexists _, allI, allJ. split; [done|]. simpl.
    do 4 (split; [done|]). split; [done|]. done.
Qed.

Lemma Geometry_guided_matching_modes_witness :
  precision_is_bounded estimated_filter = true
  ∧ getCommonDescTypes scene_regions (0, 1) ≠ []
  ∧ ∃ e, run_guided_matching estimated_filter (-1)%float ∅ = Returned e
         ∧ gm_self e = estimated_filter.
Proof.
  split; [reflexivity|]. split; [vm_compute; discriminate|].
  destruct (@Geometry_guided_matching_modes sample_matching estimated_filter
              scene scene_regions (0, 1) (-1)%float ∅
              {| ui_width := 640; ui_height := 480; id_intrinsic := 0 |}
              {| ui_width := 640; ui_height := 480; id_intrinsic := 0 |}
              eq_refl ltac:(vm_compute; discriminate) eq_refl eq_refl)
    as (e & _ & _ & Hrun & Hself & _).
  exists e. split; [exact Hrun | exact Hself].
Defined.

(** ** The deduplication *)

(** What the pass keeps comes from its input. *)
Lemma dedup_xy_subset (featsI featsJ : list PointFeature)
    (seen l : list IndMatch) (m : IndMatch) :
  m ∈ dedup_xy featsI featsJ seen l → m ∈ l.
Proof.
  revert seen. induction l as [|m' rest IH]; intros seen; [done|].
  cbn [dedup_xy].
  destruct (existsb (same_xy featsI featsJ m') seen).
  - intros Hm. right. by eapply IH.
  - intros [->|Hm]%elem_of_cons; [left | right; by eapply IH].
Qed.

(** No match that the pass keeps has the coordinates of a match kept before
    it. *)
Lemma dedup_xy_distinct (featsI featsJ : list PointFeature)
    (seen l : list IndMatch) (i j : nat) (m m' : IndMatch) :
  i < j →
  dedup_xy featsI featsJ seen l !! i = Some m →
  dedup_xy featsI featsJ seen l !! j = Some m' →
  same_xy featsI featsJ m' m = false.
Proof.
  assert (∀ l seen s x, s ∈ seen → x ∈ dedup_xy featsI featsJ seen l →
            same_xy featsI featsJ x s = false) as Hseen.
  { clear. induction l as [|a rest IH]; intros seen s x Hs; [by intros ?%elem_of_nil|].
    cbn [dedup_xy].
    destruct (existsb (same_xy featsI featsJ a) seen) eqn:Ha.
    - by apply IH.
    - intros [->|Hx]%elem_of_cons.
      + destruct (same_xy featsI featsJ a s) eqn:Has; [|done].
        assert (existsb (same_xy featsI featsJ a) seen = true); [|congruence].
        apply existsb_exists. exists s. by rewrite <- list_elem_of_In.
      + eapply IH; [|done]. by right. }
  revert seen i j. induction l as [|a rest IH]; intros seen i j Hij; [done|].
  cbn [dedup_xy].
  destruct (existsb (same_xy featsI featsJ a) seen); [by apply IH|].
  destruct j as [|j]; [lia|]. destruct i as [|i]; simpl.
  - intros [= ->] Hj. eapply (Hseen rest (m :: seen)); [left|].
    by eapply list_elem_of_lookup_2.
  - apply IH. lia.
Qed.

(** C8.  Running the coordinate-based deduplication pass on its own result
    gives this result again. *)
Theorem getDeduplicated_idempotent (matches : list IndMatch)
    (featsI featsJ : list PointFeature) :
  spec_getDeduplicated (spec_getDeduplicated matches featsI featsJ)
    featsI featsJ
  = spec_getDeduplicated matches featsI featsJ.
Proof.
  unfold spec_getDeduplicated. generalize (@nil IndMatch) as seen.
  induction matches as [|m rest IH]; intros seen; [done|].
  cbn [dedup_xy].
  destruct (existsb (same_xy featsI featsJ m) seen) eqn:Hseen; [apply IH|].
  cbn [dedup_xy]. rewrite Hseen. f_equal. apply IH.
Qed.

(** Two matches between features at the same pixels count once, whatever
    their indices. *)
Example getDeduplicated_example :
  spec_getDeduplicated
    [{| _i := 0; _j := 0 |}; {| _i := 1; _j := 1 |}; {| _i := 2; _j := 0 |}]
    twin_features_I twin_features_J
  = [{| _i := 0; _j := 0 |}; {| _i := 2; _j := 0 |}].
Proof. reflexivity. Qed.

(** ** The estimator of the specification *)

Lemma insert_residual_perm (p : double * nat) (l : list (double * nat)) :
  insert_residual p l ≡ₚ p :: l.
Proof.
  induction l as [|q l IH]; [done|]. cbn [insert_residual].
  destruct (PrimFloat.ltb q.1 p.1); [|done].
  rewrite IH. apply Permutation_swap.
Qed.

Lemma sort_residuals_perm (l : list (double * nat)) : sort_residuals l ≡ₚ l.
Proof.
  induction l as [|p l IH]; [done|].
  unfold sort_residuals in *. cbn [foldr].
  by rewrite insert_residual_perm, IH.
Qed.

Lemma Errors_indices `{EstimatorStrategy} (kernel : KernelType) (model : Mat3) :
  (Errors kernel model).*2 = seq 0 (NumSamples kernel).
Proof.
  unfold Errors, NumSamples. rewrite fmap_imap.
  etrans; [apply (imap_seq_0 (kernel_points kernel) id)|].
  apply list_fmap_id.
Qed.


Lemma inliers_in_range_length (n : nat) (inliers : list nat) :
  inliers_in_range n inliers → length inliers ≤ n.
Proof.
  intros [Hnd Hlt].
  replace n with (length (seq 0 n)) at 1 by apply length_seq.
  apply submseteq_length, NoDup_submseteq; [done|].
  intros i Hi. apply elem_of_seq. rewrite Forall_forall in Hlt.
  specialize (Hlt i Hi). lia.
Qed.

Lemma sorted_prefix_in_range `{EstimatorStrategy} (kernel : KernelType)
    (model : Mat3) (k : nat) :
  inliers_in_range (NumSamples kernel)
    (take k (sort_residuals (Errors kernel model))).*2.
Proof.
  rewrite fmap_take.
  assert ((sort_residuals (Errors kernel model)).*2
          ≡ₚ seq 0 (NumSamples kernel)) as Hperm.
  { rewrite sort_residuals_perm. by rewrite Errors_indices. }
  split.
  - eapply sublist_NoDup; [|apply sublist_take].
    rewrite Hperm. apply NoDup_seq.
  - apply Forall_take. rewrite Hperm. apply Forall_seq. intros; lia.
Qed.

Lemma keep_best_in_range (n : nat) (best new : option candidate) :
  candidate_in_range n best → candidate_in_range n new →
  candidate_in_range n (keep_best best new).
Proof.
  intros Hb Hn. unfold keep_best.
  destruct best as [b|], new as [c'|]; try done.
  by destruct (improves c' b).
Qed.

Lemma sweep_in_range `{EstimatorStrategy} (kernel : KernelType)
    (upper : double) (best : option candidate) (model : Mat3) :
  candidate_in_range (NumSamples kernel) best →
  candidate_in_range (NumSamples kernel) (sweep kernel upper best model).
Proof.
  unfold sweep. generalize (seq MINIMUM_SAMPLES (S (NumSamples kernel) - MINIMUM_SAMPLES)).
  intros ks. revert best. induction ks as [|k ks IH]; intros best Hb; [done|].
  cbn [foldl]. apply IH, keep_best_in_range; [done|].
  intros c. unfold candidate_at. destruct k as [|k']; [done|].
  destruct (_ !! k') as [[residual i]|]; [|done].
  destruct (within_bound upper residual); [|done].
  intros [= <-]. apply sorted_prefix_in_range.
Qed.

Lemma ACRANSAC_loop_in_range `{EstimatorStrategy} (kernel : KernelType)
    (upper : double) (nIter : nat) (best : option candidate) (g : Seed) :
  candidate_in_range (NumSamples kernel) best →
  candidate_in_range (NumSamples kernel)
    (ACRANSAC_loop kernel upper nIter best g).1.
Proof.
  revert best g. induction nIter as [|nIter IH]; intros best g Hb; [done|].
  cbn [ACRANSAC_loop]. destruct (UniformSample _ _ g) as [sample g'].
  apply IH. generalize (Fit kernel sample). intros models. revert best Hb.
  induction models as [|model models IHm]; intros best Hb; [done|].
  cbn [foldl]. by apply IHm, sweep_in_range.
Qed.

(** The result of [spec_ACRANSAC]: without a candidate the model slot is
    left alone and no inlier is reported; with one, the inliers are distinct
    points of the kernel, and the model, the inliers and the precision are
    the ones of the best candidate, whatever the slot held. *)
Lemma spec_ACRANSAC_cases `{EstimatorStrategy} (kernel : KernelType)
    (nIter : nat) (precision : double) (g : Seed) :
  let best := ACRANSAC_loop kernel precision nIter None g in
  (best.1 = None
   ∧ ∀ model,
       spec_ACRANSAC kernel nIter model precision g
       = ([], model, (infinity, infinity), best.2))
  ∨ (∃ c, best.1 = Some c
       ∧ inliers_in_range (NumSamples kernel) (c_inliers c)
       ∧ ∀ model,
           spec_ACRANSAC kernel nIter model precision g
           = (c_inliers c, c_model c,
              (PrimFloat.sqrt (c_threshold c), c_nfa c), best.2)).
Proof.
  unfold spec_ACRANSAC.
  pose proof (ACRANSAC_loop_in_range kernel precision nIter None g) as Hrange.
  destruct (ACRANSAC_loop kernel precision nIter None g) as [[c|] g'].
  - right. exists c. split; [done|]. split; [|done]. by apply Hrange.
  - left. by split.
Qed.


(** The point matrices have one column per putative match of the common
    descriptor types. *)
Lemma mapM_Returned_length {A B : Type} (f : A → outcome B)
    (l : list A) (k : list B) :
  mapM f l = Returned k → length k = length l.
Proof.
  revert k. induction l as [|x l IH]; intros k; [by intros [= <-]|].
  cbn [mapM]. destruct (f x) as [y|]; [|done]. simpl.
  destruct (mapM f l) as [k'|]; [|done]. simpl.
  intros [= <-]. simpl. f_equal. by apply IH.
Qed.

Lemma spec_MatchesPairToMat_width (pair : Pair)
    (putative : gmap nat (list IndMatch)) (sfmData : SfM_Data)
    (r : gmap nat (gmap nat Regions)) (descTypes : list nat) (x_I x_J : Mat) :
  spec_MatchesPairToMat pair putative sfmData r descTypes = Returned (x_I, x_J) →
  length x_I = length (putative_columns putative descTypes)
  ∧ length x_J = length (putative_columns putative descTypes).
Proof.
  unfold spec_MatchesPairToMat, map_at.
  destruct (GetViews sfmData !! pair.1) as [vi|]; [|done].
  destruct (GetViews sfmData !! pair.2) as [vj|]; [|done]. simpl.
  destruct (mapM _ _) as [cols|] eqn:Hcols; [|done]. simpl.
  intros [= <- <-]. apply mapM_Returned_length in Hcols.
  by rewrite !length_fmap.
Qed.

Lemma putative_columns_length (putative : gmap nat (list IndMatch))
    (descTypes : list nat) :
  length (putative_columns putative descTypes)
  = sum_list (getNbMatches putative <$> descTypes).
Proof.
  unfold putative_columns. induction descTypes as [|d ds IH]; [done|].
  rewrite bind_cons, length_app, IH, fmap_cons.
  unfold putative_block at 1. by rewrite length_fmap.
Qed.


(** ** [copyInlierMatches] of the specification *)








(** ** [Robust_estimation] with the estimator of the specification *)

(** The kernel of a run counts the putative matches of the common
    descriptor types. *)
Lemma kernel_NumSamples (pair : Pair) (putative : gmap nat (list IndMatch))
    (sfmData : SfM_Data) (r : gmap nat (gmap nat Regions))
    (descTypes : list nat) (x_I x_J : Mat) (wi hi wj hj : nat) (b : bool) :
  spec_MatchesPairToMat pair putative sfmData r descTypes = Returned (x_I, x_J) →
  NumSamples {| x1 := x_I; w1 := wi; h1 := hi;
                x2 := x_J; w2 := wj; h2 := hj; bPointToLine := b |}
  = length (putative_columns putative descTypes).
Proof.
  intros [HI HJ]%spec_MatchesPairToMat_width.
  unfold NumSamples, kernel_points. simpl. rewrite length_zip. lia.
Qed.


(** C5, as the code has it.  Without a common descriptor type, or without
    a putative match between two views that the scene has,
    [Robust_estimation] returns false, throws nothing, and leaves the output
    empty, whatever it held before the call. *)
Theorem Robust_estimation_empty_input `{EstimatorStrategy}
    (self : GeometricFilter_HMatrix_AC) (sfmData : SfM_Data)
    (regionsPerView : gmap nat (gmap nat Regions)) (pairIndex : Pair)
    (putative out0 : gmap nat (list IndMatch)) (g : Seed) :
  getCommonDescTypes regionsPerView pairIndex = []
  ∨ (getNbAllMatches putative = 0
     ∧ is_Some (GetViews sfmData !! pairIndex.1)
     ∧ is_Some (GetViews sfmData !! pairIndex.2)) →
  ∃ e, Robust_estimation self sfmData regionsPerView pairIndex putative out0 g
       = Returned e
     ∧ est_ret e = false ∧ est_out e = ∅ ∧ est_inliers e = [].
Proof.
  intros Hcase.
  destruct (decide (getCommonDescTypes regionsPerView pairIndex = []))
    as [Hd|Hd].
  { exists {| est_ret := false; est_self := self; est_out := ∅;
              est_inliers := []; est_rng := g |}.
    split; [|done].
    apply (@Robust_estimation_path _ spec_EstimationEnv).
    by apply (@path_no_common_type _ spec_EstimationEnv). }
  destruct Hcase as [?|(Hzero & [vi Hi] & [vj Hj])]; [done|].
  set (descTypes := RegionsPerView_getCommonDescTypes regionsPerView pairIndex).
  assert (putative_columns putative descTypes = []) as Hcols.
  { apply length_zero_iff_nil. rewrite putative_columns_length.
    pose proof (getNbMatches_sum_le putative _
                  (getCommonDescTypes_NoDup regionsPerView pairIndex)) as Hle.
    fold descTypes in Hle. lia. }
  assert (spec_MatchesPairToMat pairIndex putative sfmData regionsPerView
            descTypes = Returned ([], [])) as HM.
  { unfold spec_MatchesPairToMat, map_at. rewrite Hi, Hj. simpl.
    by rewrite Hcols. }
  pose proof (kernel_NumSamples pairIndex putative sfmData regionsPerView _
                [] [] (ui_width vi) (ui_height vi) (ui_width vj) (ui_height vj)
                false HM) as Hn.
  rewrite Hcols in Hn. simpl in Hn.
  match type of Hn with
  | NumSamples ?k = 0 =>
      destruct (spec_ACRANSAC_cases k (m_stIteration self)
                  (Square (m_dPrecision self)) g)
        as [[_ Hrun] | (c & _ & Hrange & Hrun)]
  end.
  - eexists. split.
    + apply (@Robust_estimation_path _ spec_EstimationEnv).
      exact (@path_estimated _ spec_EstimationEnv self sfmData regionsPerView
               pairIndex putative g [] [] vi vj _ _ _ _
               Hd HM Hi Hj (Hrun (m_H self))).
    + done.
  - apply inliers_in_range_length in Hrange. rewrite Hn in Hrange.
    assert (c_inliers c = []) as Hnil by (apply length_zero_iff_nil; lia).
    rewrite Hnil in Hrun. eexists. split.
    + apply (@Robust_estimation_path _ spec_EstimationEnv).
      exact (@path_estimated _ spec_EstimationEnv self sfmData regionsPerView
               pairIndex putative g [] [] vi vj _ _ _ _
               Hd HM Hi Hj (Hrun (m_H self))).
    + done.
Qed.

Lemma Robust_estimation_empty_input_witness :
  (getNbAllMatches (∅ : gmap nat (list IndMatch)) = 0
   ∧ is_Some (GetViews scene !! 0) ∧ is_Some (GetViews scene !! 1))
  ∧ ∃ e, run_estimation GeometricFilter_HMatrix_AC_default ∅ 0 = Returned e
         ∧ est_ret e = false ∧ est_out e = ∅ ∧ est_inliers e = [].
Proof.
  assert (getNbAllMatches (∅ : gmap nat (list IndMatch)) = 0
          ∧ is_Some (GetViews scene !! 0) ∧ is_Some (GetViews scene !! 1))
    as Hin by (vm_compute; eauto).
  split; [exact Hin|].
  exact (@Robust_estimation_empty_input sample_strategy
           GeometricFilter_HMatrix_AC_default scene scene_regions (0, 1)
           ∅ ∅ 0 (or_intror Hin)).
Defined.




(** The claim C5 fails on a pair with a common descriptor type and without
    putative matches when the scene lacks the views of the pair: the call
    throws [std::out_of_range], with the collaborators of the specification
    and also with a [MatchesPairToMat] that returns two empty matrices,
    where the throw is the one of line 70. *)
Lemma Robust_estimation_empty_input_counterexample :
  getNbAllMatches (∅ : gmap nat (list IndMatch)) = 0
  ∧ GetViews empty_scene !! 0 = None
  ∧ RegionsPerView_getCommonDescTypes scene_regions (0, 1) ≠ []
  ∧ @Robust_estimation _ (@spec_EstimationEnv sample_strategy)
      GeometricFilter_HMatrix_AC_default empty_scene scene_regions (0, 1)
      ∅ ∅ 0
    = Thrown out_of_range
  ∧ @Robust_estimation _ writing_env
      GeometricFilter_HMatrix_AC_default empty_scene scene_regions (0, 1)
      ∅ ∅ tt
    = Thrown out_of_range.
Proof.
  split; [apply getNbAllMatches_empty|]. split; [reflexivity|].
  split; [by vm_compute|]. split; vm_compute; reflexivity.
Qed.



(** ** The robust precision across calls *)

(** C10.  [Robust_estimation] assigns [m_dPrecision_robust] on the success
    path only, where it receives the precision [ACRANSAC] reports; a call
    that returns false, by either way, leaves it as it was.  So when an
    estimation has succeeded with a bounded precision and a later
    estimation on the same object fails, the precision of the first is
    still in the object, the guard of [Geometry_guided_matching] still
    passes, and the guided matching runs its guarded block with it. *)
Theorem Robust_estimation_failure_keeps_precision {T : Type}
    `{EstimationEnv T} `{MatchingEnv}
    (self : GeometricFilter_HMatrix_AC)
    (sfmData1 sfmData2 : SfM_Data) (regions1 regions2 : T)
    (pair1 pair2 : Pair)
    (putative1 putative2 out1 out2 : gmap nat (list IndMatch))
    (g1 g2 : Rng) (e1 e2 : estimation_exit Rng) :
  Robust_estimation self sfmData1 regions1 pair1 putative1 out1 g1
  = Returned e1 →
  Robust_estimation (est_self e1) sfmData2 regions2 pair2 putative2 out2 g2
  = Returned e2 →
  est_ret e2 = false →
  m_dPrecision_robust (est_self e2) = m_dPrecision_robust (est_self e1)
  ∧ (est_ret e1 = false →
     m_dPrecision_robust (est_self e1) = m_dPrecision_robust self)
  ∧ (est_ret e1 = true → precision_is_bounded (est_self e1) = true →
     precision_is_bounded (est_self e2) = true
     ∧ ∀ sfmData regionsPerView imageIdsPair dDistanceRatio matches,
         Geometry_guided_matching (est_self e2) sfmData regionsPerView
           imageIdsPair dDistanceRatio matches
         = guarded_block (est_self e2) sfmData regionsPerView
             imageIdsPair dDistanceRatio matches
         ∧ Square (m_dPrecision_robust (est_self e2))
           = Square (m_dPrecision_robust (est_self e1))).
Proof.
  intros Hrun1 Hrun2 Hret2.
  assert (∀ s sfm r p put out g (e : estimation_exit Rng),
            Robust_estimation s sfm r p put out g = Returned e →
            est_ret e = false →
            m_dPrecision_robust (est_self e) = m_dPrecision_robust s)
    as Hframe.
  { intros s sfm r p put out g e Hrun Hret.
    apply Robust_estimation_path in Hrun.
    destruct Hrun as [Hd | x_I x_J vi vj inl H' pr g' Hd HM Hi Hj HA]; [done|].
    by destruct (too_few_inliers (length inl)). }
  pose proof (Hframe _ _ _ _ _ _ _ _ Hrun2 Hret2) as Hkept.
  split; [exact Hkept|]. split; [by apply (Hframe _ _ _ _ _ _ _ _ Hrun1)|].
  intros _ Hbounded.
  assert (precision_is_bounded (est_self e2) = true) as Hbounded2.
  { unfold precision_is_bounded in *. by rewrite Hkept. }
  split; [exact Hbounded2|]. intros sfmData regionsPerView pair ratio matches.
  split; [|by rewrite Hkept].
  unfold Geometry_guided_matching. by rewrite Hbounded2.
Qed.

Lemma run_estimation_again :
  run_estimation estimated_filter ∅ 1024 = Returned failed_exit.
Proof. vm_compute. reflexivity. Qed.

Lemma Robust_estimation_failure_keeps_precision_witness :
  run_estimation GeometricFilter_HMatrix_AC_default scene_putative 0
  = Returned estimated_exit
  ∧ run_estimation (est_self estimated_exit) ∅ 1024 = Returned failed_exit
  ∧ est_ret failed_exit = false
  ∧ m_dPrecision_robust (est_self failed_exit) = 0%float
  ∧ precision_is_bounded (est_self failed_exit) = true.
Proof.
  split; [exact run_estimation_scene|].
  split; [exact run_estimation_again|]. split; [reflexivity|].
  pose proof run_estimation_scene as Hrun1. unfold run_estimation in Hrun1.
  pose proof run_estimation_again as Hrun2. unfold run_estimation in Hrun2.
  destruct (@Robust_estimation_failure_keeps_precision _
              (@spec_EstimationEnv sample_strategy) sample_matching
              GeometricFilter_HMatrix_AC_default scene scene
              scene_regions scene_regions (0, 1) (0, 1)
              scene_putative ∅ ∅ ∅ 0 1024 estimated_exit failed_exit
              Hrun1 Hrun2 eq_refl)
    as (Hkept & _ & Hguard).
  split; [exact Hkept|].
  exact (proj1 (Hguard eq_refl eq_refl)).
Defined.

(** ** The model slot of a failed call, with any collaborators *)

(** X1.  [Robust_estimation] itself never writes [m_H]: after a call that
    returns false the object is as before when there was no common
    descriptor type, and otherwise it differs from the object before the
    call at most in [m_H], which holds what [ACRANSAC] left in the slot it
    received at line 78. *)
Theorem Robust_estimation_failure_m_H_slot {T : Type} `{EstimationEnv T}
    (self : GeometricFilter_HMatrix_AC) (sfmData : SfM_Data)
    (regionsPerView : T) (pairIndex : Pair)
    (putative out0 : gmap nat (list IndMatch)) (g : Rng)
    (e : estimation_exit Rng) :
  Robust_estimation self sfmData regionsPerView pairIndex putative out0 g
  = Returned e →
  est_ret e = false →
  (getCommonDescTypes regionsPerView pairIndex = [] ∧ est_self e = self)
  ∨ (∃ x_I x_J view_i view_j,
       MatchesPairToMat pairIndex putative sfmData regionsPerView
         (getCommonDescTypes regionsPerView pairIndex) = Returned (x_I, x_J)
       ∧ GetViews sfmData !! pairIndex.1 = Some view_i
       ∧ GetViews sfmData !! pairIndex.2 = Some view_j
       ∧ est_self e
         = set_m_H self
             (ACRANSAC
                {| x1 := x_I; w1 := ui_width view_i; h1 := ui_height view_i;
                   x2 := x_J; w2 := ui_width view_j; h2 := ui_height view_j;
                   bPointToLine := false |}
                (m_stIteration self) (m_H self) (Square (m_dPrecision self))
                g).1.1.2).
Proof.
  intros Hrun Hret. apply Robust_estimation_path in Hrun.
  destruct Hrun as [Hd | x_I x_J vi vj inl H' out g' Hd HM Hi Hj HA].
  - by left.
  - right. exists x_I, x_J, vi, vj. do 3 (split; [done|]).
    rewrite HA. by destruct (too_few_inliers (length inl)).
Qed.

Lemma Robust_estimation_failure_m_H_slot_witness :
  @Robust_estimation _ writing_env GeometricFilter_HMatrix_AC_default
    scene scene_regions (0, 1) scene_putative ∅ tt
  = Returned {| est_ret := false;
                est_self := set_m_H GeometricFilter_HMatrix_AC_default
                              doubled_identity;
                est_out := ∅; est_inliers := []; est_rng := tt |}
  ∧ ∃ x_I x_J view_i view_j,
      @MatchesPairToMat _ writing_env (0, 1) scene_putative scene
        scene_regions (@getCommonDescTypes _ (@est_provider _ writing_env)
                         scene_regions (0, 1)) = Returned (x_I, x_J)
      ∧ GetViews scene !! 0 = Some view_i
      ∧ GetViews scene !! 1 = Some view_j.
Proof.
  assert (@Robust_estimation _ writing_env GeometricFilter_HMatrix_AC_default
            scene scene_regions (0, 1) scene_putative ∅ tt
          = Returned {| est_ret := false;
                        est_self := set_m_H GeometricFilter_HMatrix_AC_default
                                      doubled_identity;
                        est_out := ∅; est_inliers := []; est_rng := tt |})
    as Hrun by (vm_compute; reflexivity).
  split; [exact Hrun|].
  destruct (@Robust_estimation_failure_m_H_slot _ writing_env _ _ _ _ _ _ _ _
              Hrun eq_refl)
    as [[Hd _] | (x_I & x_J & vi & vj & HM & Hi & Hj & _)].
  - vm_compute in Hd. discriminate.
  - by exists x_I, x_J, vi, vj.
Defined.

(** ** Further properties of the header *)

(** X2.  [createMatricesWithUndistortFeatures] on a feature list returns a
    matrix with exactly one column per feature, in the order of the list:
    the raw coordinates when the camera is absent or invalid, the
    undistorted pixels when it is valid.  No column of the resized matrix
    is left unwritten. *)
Theorem createMatricesWithUndistortFeatures_spec (cam : option IntrinsicBase)
    (vec_feats : list PointFeature) :
  length (createMatricesWithUndistortFeatures cam vec_feats) = length vec_feats
  ∧ (hasValidIntrinsics cam = false →
     createMatricesWithUndistortFeatures cam vec_feats = coords <$> vec_feats)
  ∧ (∀ c, cam = Some c → isValid c = true →
     createMatricesWithUndistortFeatures cam vec_feats
     = (fun ft => get_ud_pixel c (feat_x ft, feat_y ft)) <$> vec_feats).
Proof.
  rewrite createMatricesWithUndistortFeatures_columns.
  split; [apply length_fmap|]. split.
  - intros Hcam. apply list_fmap_ext. intros _ ft _. unfold exported_column.
    destruct cam as [c|]; [|done]. simpl in Hcam. by rewrite Hcam.
  - intros c -> Hvalid. apply list_fmap_ext. intros _ ft _.
    unfold exported_column. by rewrite Hvalid.
Qed.

(** X3.  A call of [Robust_estimation] that returns never changes the
    configuration of the filter, [m_dPrecision] and [m_stIteration], and
    what it returns does not depend on what the output parameter held
    before the call. *)
Theorem Robust_estimation_keeps_configuration {T : Type} `{EstimationEnv T}
    (self : GeometricFilter_HMatrix_AC) (sfmData : SfM_Data)
    (regionsPerView : T) (pairIndex : Pair)
    (putative out0 : gmap nat (list IndMatch)) (g : Rng)
    (e : estimation_exit Rng) :
  Robust_estimation self sfmData regionsPerView pairIndex putative out0 g
  = Returned e →
  m_dPrecision (est_self e) = m_dPrecision self
  ∧ m_stIteration (est_self e) = m_stIteration self
  ∧ ∀ out0',
      Robust_estimation self sfmData regionsPerView pairIndex putative out0' g
      = Returned e.
Proof.
  intros Hrun. split; [|split].
  - apply Robust_estimation_path in Hrun.
    destruct Hrun as [Hd | x_I x_J vi vj inl H' out g' Hd HM Hi Hj HA]; [done|].
    by destruct (too_few_inliers (length inl)).
  - apply Robust_estimation_path in Hrun.
    destruct Hrun as [Hd | x_I x_J vi vj inl H' out g' Hd HM Hi Hj HA]; [done|].
    by destruct (too_few_inliers (length inl)).
  - intros out0'. apply Robust_estimation_path.
    by apply Robust_estimation_path in Hrun.
Qed.

Lemma Robust_estimation_keeps_configuration_witness :
  run_estimation GeometricFilter_HMatrix_AC_default scene_putative 0
  = Returned estimated_exit
  ∧ m_stIteration (est_self estimated_exit) = 1024
  ∧ run_estimation GeometricFilter_HMatrix_AC_default scene_putative 0
    = @Robust_estimation _ (@spec_EstimationEnv sample_strategy)
        GeometricFilter_HMatrix_AC_default scene scene_regions (0, 1)
        scene_putative stale_matches 0.
Proof.
  split; [exact run_estimation_scene|].
  pose proof run_estimation_scene as Hrun. unfold run_estimation in Hrun.
  destruct (@Robust_estimation_keeps_configuration _
              (@spec_EstimationEnv sample_strategy)
              GeometricFilter_HMatrix_AC_default scene scene_regions (0, 1)
              scene_putative ∅ 0 estimated_exit Hrun)
    as (_ & Hiter & Hout).
  split; [exact Hiter|].
  etrans; [exact run_estimation_scene|]. symmetry. exact (Hout stale_matches).
Defined.

(** X4.  When the pair has a common descriptor type, [Robust_estimation]
    hands on what [MatchesPairToMat] throws, and it throws
    [std::out_of_range] itself when the scene does not have one of the two
    views of the pair (the [at] of line 70). *)
Theorem Robust_estimation_throws {T : Type} `{EstimationEnv T}
    (self : GeometricFilter_HMatrix_AC) (sfmData : SfM_Data)
    (regionsPerView : T) (pairIndex : Pair)
    (putative out0 : gmap nat (list IndMatch)) (g : Rng) :
  getCommonDescTypes regionsPerView pairIndex ≠ [] →
  (∀ ex,
     MatchesPairToMat pairIndex putative sfmData regionsPerView
       (getCommonDescTypes regionsPerView pairIndex) = Thrown ex →
     Robust_estimation self sfmData regionsPerView pairIndex putative out0 g
     = Thrown ex)
  ∧ (∀ x_I x_J,
       MatchesPairToMat pairIndex putative sfmData regionsPerView
         (getCommonDescTypes regionsPerView pairIndex) = Returned (x_I, x_J) →
       GetViews sfmData !! pairIndex.1 = None
       ∨ GetViews sfmData !! pairIndex.2 = None →
       Robust_estimation self sfmData regionsPerView pairIndex putative out0 g
       = Thrown out_of_range).
Proof.
  intros Hd. unfold Robust_estimation.
  rewrite bool_decide_eq_false_2 by done. split.
  - intros ex ->. done.
  - intros x_I x_J -> Hmissing. simpl. unfold map_at, GetViews in *.
    destruct (views sfmData !! pairIndex.1) as [vi|]; simpl; [|done].
    destruct Hmissing as [? | ->]; done.
Qed.

Lemma Robust_estimation_throws_witness :
  @getCommonDescTypes _ (@est_provider _ writing_env) scene_regions (0, 1) ≠ []
  ∧ GetViews empty_scene !! 0 = None
  ∧ @Robust_estimation _ writing_env GeometricFilter_HMatrix_AC_default
      empty_scene scene_regions (0, 1) scene_putative ∅ tt
    = Thrown out_of_range.
Proof.
  assert (@getCommonDescTypes _ (@est_provider _ writing_env)
            scene_regions (0, 1) ≠ []) as Hd by (vm_compute; discriminate).
  split; [exact Hd|]. split; [reflexivity|].
  exact (proj2 (@Robust_estimation_throws _ writing_env
                  GeometricFilter_HMatrix_AC_default empty_scene
                  scene_regions (0, 1) scene_putative ∅ tt Hd)
           [] [] eq_refl (or_introl eq_refl)).
Defined.

(** X5.  Once the robust precision is bounded, [Geometry_guided_matching]
    has two exits before it matches anything.  Without a common descriptor
    type it returns false and leaves the output as the caller passed it,
    even when that output holds matches (line 192, unlike the final return
    of line 247).  With a common descriptor type and a view of the pair
    that the scene does not have, it throws [std::out_of_range]
    (lines 198-199). *)
Theorem Geometry_guided_matching_early_exits `{MatchingEnv}
    (self : GeometricFilter_HMatrix_AC) (sfmData : SfM_Data)
    (regionsPerView : gmap nat (gmap nat Regions)) (imageIdsPair : Pair)
    (dDistanceRatio : double) (matches : gmap nat (list IndMatch)) :
  precision_is_bounded self = true →
  (getCommonDescTypes regionsPerView imageIdsPair = [] →
   Geometry_guided_matching self sfmData regionsPerView imageIdsPair
     dDistanceRatio matches
   = Returned {| gm_ret := false; gm_self := self; gm_matches := matches |})
  ∧ (getCommonDescTypes regionsPerView imageIdsPair ≠ [] →
     views sfmData !! imageIdsPair.1 = None
     ∨ views sfmData !! imageIdsPair.2 = None →
     Geometry_guided_matching self sfmData regionsPerView imageIdsPair
       dDistanceRatio matches
     = Thrown out_of_range).
Proof.
  intros Hbounded. unfold Geometry_guided_matching, guarded_block.
  rewrite Hbounded. split.
  - intros Hd. by rewrite bool_decide_eq_true_2.
  - intros Hd Hmissing. rewrite bool_decide_eq_false_2 by done.
    unfold map_at.
    destruct (views sfmData !! imageIdsPair.1) as [vi|]; simpl; [|done].
    destruct Hmissing as [? | ->]; done.
Qed.

Lemma Geometry_guided_matching_early_exits_witness :
  precision_is_bounded estimated_filter = true
  ∧ getCommonDescTypes disjoint_regions (0, 1) = []
  ∧ @Geometry_guided_matching sample_matching estimated_filter scene
      disjoint_regions (0, 1) (-1)%float stale_matches
    = Returned {| gm_ret := false; gm_self := estimated_filter;
                  gm_matches := stale_matches |}.
Proof.
  assert (getCommonDescTypes disjoint_regions (0, 1) = []) as Hd
    by (vm_compute; reflexivity).
  split; [reflexivity|]. split; [exact Hd|].
  exact (proj1 (@Geometry_guided_matching_early_exits sample_matching
                  estimated_filter scene disjoint_regions (0, 1)
                  (-1)%float stale_matches eq_refl) Hd).
Defined.

(** * Properties of the color harmonization engine *)

(** ** The choices of the constructor *)

Lemma ask_until_rejects_all {A : Type} (rejected : A → bool) (v : A)
    (input : list A) :
  (∀ x, rejected x = true) → ask_until rejected v input = None.
Proof.
  intros Hall. revert v. induction input as [|x rest IH]; intros v; simpl.
  - by rewrite Hall.
  - rewrite Hall. apply IH.
Qed.

(** X6.  The constructor accepts a reference image exactly when it indexes
    the file list, [0 <= imgRef < size], and a selection method exactly when
    it is 0, 1 or 2.  On an empty file list every [int] is rejected: the
    loop that asks for a reference image then accepts no input, and the
    constructor stores no choice. *)
Theorem constructor_choices_validation (nbFileNames imgRef selectionMethod : Z)
    (input : list Z) :
  (0 ≤ nbFileNames < 2 ^ 64)%Z →
  (- 2 ^ 31 ≤ imgRef < 2 ^ 31)%Z →
  (reference_rejected nbFileNames imgRef = false
   ↔ (0 ≤ imgRef < nbFileNames)%Z)
  ∧ (selection_rejected selectionMethod = false
     ↔ (0 ≤ selectionMethod ≤ 2)%Z)
  ∧ (nbFileNames = 0%Z →
     (∀ r, reference_rejected nbFileNames r = true)
     ∧ constructor_choices nbFileNames imgRef selectionMethod input = None).
Proof.
  intros Hn Hr. split; [|split].
  - unfold reference_rejected, to_size_t.
    rewrite orb_false_iff, Z.ltb_ge, Z.leb_gt. split.
    + intros [Hpos Hlt]. rewrite Z.mod_small in Hlt by lia. lia.
    + intros Hin. rewrite Z.mod_small by lia. lia.
  - unfold selection_rejected. rewrite orb_false_iff, !Z.ltb_ge. lia.
  - intros ->.
    assert (∀ r, reference_rejected 0 r = true) as Hall.
    { intros r. unfold reference_rejected, to_size_t.
      apply orb_true_iff. right. apply Z.leb_le.
      apply Z.mod_pos_bound. lia. }
    split; [exact Hall|]. unfold constructor_choices.
    by rewrite ask_until_rejects_all.
Qed.

Lemma constructor_choices_validation_witness :
  ((0 ≤ 3 < 2 ^ 64)%Z ∧ (- 2 ^ 31 ≤ 2 < 2 ^ 31)%Z)
  ∧ reference_rejected 3 2 = false.
Proof.
  assert ((0 ≤ 3 < 2 ^ 64)%Z ∧ (- 2 ^ 31 ≤ 2 < 2 ^ 31)%Z) as [Hn Hr] by lia.
  split; [by split|].
  apply (proj1 (constructor_choices_validation 3 2 0 [] Hn Hr)). lia.
Defined.

(** ** The pairs with poor support *)

Lemma erase_loop_lookup (entries : list ((nat * nat) * gmap nat (list IndMatch)))
    (m : gmap (nat * nat) (gmap nat (list IndMatch))) (pair : nat * nat) :
  foldl (fun m matchesPerView =>
           if getNbAllMatches matchesPerView.2 <? 120
           then delete matchesPerView.1 m else m) m entries !! pair
  = if existsb (fun entry => bool_decide (entry.1 = pair)
                             && (getNbAllMatches entry.2 <? 120)) entries
    then None else m !! pair.
Proof.
  revert m. induction entries as [|[k v] entries IH]; intros m; [done|].
  cbn [foldl existsb fst snd]. rewrite IH.
  destruct (existsb _ entries); [by rewrite orb_true_r|].
  rewrite orb_false_r.
  destruct (getNbAllMatches v <? 120); [|by rewrite andb_false_r].
  rewrite andb_true_r. case_bool_decide as Hk.
  - subst k. apply lookup_delete_eq.
  - by apply lookup_delete_ne.
Qed.

(** X7.  After the removal of the pairs with poor support, a pair is in
    [_pairwiseMatches] exactly when it was there before with at least 120
    matches, and it has the matches it had: nothing else is erased, changed
    or added. *)
Theorem remove_poor_support_lookup
    (pairwiseMatches : gmap (nat * nat) (gmap nat (list IndMatch)))
    (pair : nat * nat) (matches : gmap nat (list IndMatch)) :
  remove_poor_support pairwiseMatches !! pair = Some matches
  ↔ pairwiseMatches !! pair = Some matches ∧ 120 ≤ getNbAllMatches matches.
Proof.
  unfold remove_poor_support. rewrite erase_loop_lookup.
  destruct (existsb _ _) eqn:Hex.
  - apply existsb_exists in Hex as ([k v] & Hin & Hkv).
    apply andb_true_iff in Hkv as [Hk Hv]. simpl in *.
    apply bool_decide_eq_true in Hk as ->. apply Nat.ltb_lt in Hv.
    apply list_elem_of_In, elem_of_map_to_list in Hin.
    split; [done|]. intros [Hm Hle]. simplify_eq. lia.
  - split; [|by intros [? _]]. intros Hm. split; [done|].
    destruct (decide (120 ≤ getNbAllMatches matches)) as [|Hlt]; [done|].
    assert (existsb (fun entry => bool_decide (entry.1 = pair)
                                  && (getNbAllMatches entry.2 <? 120))
              (map_to_list pairwiseMatches) = true); [|congruence].
    apply existsb_exists. exists (pair, matches). split.
    + by apply list_elem_of_In, elem_of_map_to_list.
    + simpl. rewrite bool_decide_eq_true_2 by done. apply Nat.ltb_lt. lia.
Qed.

(** ** The remaining cameras *)

Lemma set_indeximage_elem
    (pairwiseMatches : gmap (nat * nat) (gmap nat (list IndMatch))) (n : nat) :
  n ∈ set_indeximage pairwiseMatches
  ↔ ∃ pair, is_Some (pairwiseMatches !! pair) ∧ (n = pair.1 ∨ n = pair.2).
Proof.
  unfold set_indeximage.
  assert (∀ (l : list (nat * nat)) (s : gset nat),
            n ∈ foldl (fun s (pair : nat * nat) =>
                         {[pair.2]} ∪ ({[pair.1]} ∪ s)) s l
            ↔ n ∈ s ∨ ∃ pair, pair ∈ l ∧ (n = pair.1 ∨ n = pair.2)) as Hfold.
  { induction l as [|p l IHl]; intros s; simpl.
    - split; [by left|]. intros [?|(? & ?%elem_of_nil & _)]; done.
    - rewrite IHl, !elem_of_union, !elem_of_singleton. split.
      + intros [[->|[->|Hn]]|(q & Hq & Hn)].
        * right. exists p. split; [left|by right].
        * right. exists p. split; [left|by left].
        * by left.
        * right. exists q. split; [by right|done].
      + intros [Hn|(q & Hq & Hn)]; [by left; right; right|].
        apply elem_of_cons in Hq as [->|Hq].
        * left. destruct Hn as [->| ->]; [right; by left|by left].
        * right. by exists q. }
  rewrite Hfold. split.
  - intros [?%elem_of_empty|(pair & Hp & Hn)]; [done|].
    exists pair. split; [|done].
    apply list_elem_of_fmap in Hp as ([p v] & -> & Hp).
    apply elem_of_map_to_list in Hp. by exists v.
  - intros (pair & [v Hv] & Hn). right. exists pair. split; [|done].
    apply list_elem_of_fmap. exists (pair, v). split; [done|].
    by apply elem_of_map_to_list.
Qed.

Lemma set_iteration_perm (s : gset nat) : set_iteration s ≡ₚ elements s.
Proof. apply merge_sort_Permutation. Qed.

Lemma set_iteration_elem (s : gset nat) (n : nat) :
  n ∈ set_iteration s ↔ n ∈ s.
Proof. by rewrite set_iteration_perm, elem_of_elements. Qed.

Lemma set_iteration_NoDup (s : gset nat) : NoDup (set_iteration s).
Proof. rewrite set_iteration_perm. apply NoDup_elements. Qed.

Lemma set_iteration_length (s : gset nat) : length (set_iteration s) = size s.
Proof. by rewrite set_iteration_perm. Qed.

Lemma set_iteration_ascending (s : gset nat) (i j a b : nat) :
  set_iteration s !! i = Some a → set_iteration s !! j = Some b →
  i < j → a < b.
Proof.
  intros Hi Hj Hij.
  assert (StronglySorted le (set_iteration s)) as Hsorted
    by apply (StronglySorted_merge_sort le).
  pose proof (set_iteration_NoDup s) as Hnd.
  revert Hsorted Hnd i j Hi Hj Hij.
  generalize (set_iteration s). intros l Hsorted.
  induction Hsorted as [|x l Hsorted IH Hall]; intros Hnd i j Hi Hj Hij; [done|].
  apply NoDup_cons in Hnd as [Hx Hnd].
  destruct j as [|j]; [lia|]. simpl in Hj.
  destruct i as [|i]; simpl in Hi.
  - injection Hi as ->. apply list_elem_of_lookup_2 in Hj as Hb.
    rewrite Forall_forall in Hall. specialize (Hall b Hb).
    assert (a ≠ b) by (intros ->; done). lia.
  - eapply (IH Hnd i j); [done..|lia].
Qed.

(** The loop of the two maps on a list without repetition. *)
Lemma index_cameras_index (nodes : list nat) (k : nat)
    (maps : gmap nat nat * gmap nat nat) (j : nat) :
  (index_cameras nodes k maps).1 !! j
  = if decide (k ≤ j < k + length nodes) then nodes !! (j - k)
    else maps.1 !! j.
Proof.
  revert k maps. induction nodes as [|n nodes IH]; intros k maps.
  - simpl. case_decide; [lia|done].
  - cbn [index_cameras length]. rewrite IH. cbn [fst].
    destruct (decide (S k ≤ j < S k + length nodes)) as [Hj|Hj].
    + rewrite decide_True by lia. by replace (j - k) with (S (j - S k)) by lia.
    + destruct (decide (j = k)) as [->|Hne].
      * rewrite decide_True by lia. rewrite Nat.sub_diag, lookup_insert_eq. done.
      * rewrite decide_False by lia. by apply lookup_insert_ne.
Qed.

Lemma index_cameras_node (nodes : list nat) (k : nat)
    (maps : gmap nat nat * gmap nat nat) (n : nat) :
  NoDup nodes →
  (index_cameras nodes k maps).2 !! n
  = match list_find (fun x => x = n) nodes with
    | Some (i, _) => Some (k + i)
    | None => maps.2 !! n
    end.
Proof.
  intros Hnd. revert k maps.
  induction Hnd as [|x nodes Hx Hnd IH]; intros k maps; [done|].
  cbn [index_cameras list_find]. rewrite IH. cbn [snd].
  destruct (decide (x = n)) as [->|Hne].
  - assert (list_find (fun x => x = n) nodes = None) as ->.
    { apply list_find_None. apply Forall_forall. by intros y Hy ->. }
    simpl. rewrite lookup_insert_eq. f_equal. lia.
  - destruct (list_find (fun x => x = n) nodes) as [[i y]|]; simpl.
    + f_equal. lia.
    + by apply lookup_insert_ne.
Qed.

Lemma camera_maps_lookups (s : gset nat) (k n : nat) :
  ((camera_maps s).1 !! k = Some n ↔ set_iteration s !! k = Some n)
  ∧ ((camera_maps s).2 !! n = Some k ↔ set_iteration s !! k = Some n).
Proof.
  unfold camera_maps. split.
  - rewrite index_cameras_index. simpl. rewrite Nat.sub_0_r.
    case_decide as Hk; [done|]. rewrite lookup_empty. split; [done|].
    intros Hl. apply lookup_lt_Some in Hl. lia.
  - rewrite index_cameras_node by apply set_iteration_NoDup. simpl.
    destruct (list_find (fun x => x = n) (set_iteration s)) as [[i y]|] eqn:Hf.
    + apply list_find_Some in Hf as (Hi & -> & _). split.
      * by intros [= <-].
      * intros Hk. f_equal.
        by eapply NoDup_lookup; [apply set_iteration_NoDup|..].
    + rewrite lookup_empty. split; [done|]. intros Hk.
      rewrite list_find_None, Forall_forall in Hf.
      destruct (Hf n); [by eapply list_elem_of_lookup_2 | done].
Qed.

(** X8.  The two camera maps that [Process] builds from the remaining pairs
    are inverse to each other; the camera nodes are the views that occur
    in a pair; the camera indices are the numbers below the number of
    these views, and they follow the order of the node ids. *)
Theorem camera_maps_inverse
    (pairwiseMatches : gmap (nat * nat) (gmap nat (list IndMatch))) :
  let s := set_indeximage pairwiseMatches in
  let map_cameraIndexTocameraNode := (camera_maps s).1 in
  let map_cameraNodeToCameraIndex := (camera_maps s).2 in
  (∀ k n, map_cameraIndexTocameraNode !! k = Some n
          ↔ map_cameraNodeToCameraIndex !! n = Some k)
  ∧ (∀ n, is_Some (map_cameraNodeToCameraIndex !! n)
          ↔ ∃ pair, is_Some (pairwiseMatches !! pair)
                    ∧ (n = pair.1 ∨ n = pair.2))
  ∧ (∀ k, is_Some (map_cameraIndexTocameraNode !! k) ↔ k < size s)
  ∧ (∀ k1 k2 n1 n2,
       map_cameraIndexTocameraNode !! k1 = Some n1 →
       map_cameraIndexTocameraNode !! k2 = Some n2 →
       k1 < k2 → n1 < n2).
Proof.
  intros s idx2node node2idx. subst idx2node node2idx.
  split; [|split; [|split]].
  - intros k n. destruct (camera_maps_lookups s k n) as [-> ->]. done.
  - intros n. rewrite <- set_indeximage_elem. fold s.
    rewrite <- set_iteration_elem. split.
    + intros [k Hk]. apply (camera_maps_lookups s k n) in Hk.
      by eapply list_elem_of_lookup_2.
    + intros [k Hk]%list_elem_of_lookup. exists k.
      by apply (proj2 (camera_maps_lookups s k n)).
  - intros k. rewrite <- set_iteration_length, <- lookup_lt_is_Some.
    split; intros [n Hn]; exists n;
      by apply (proj1 (camera_maps_lookups s k n)).
  - intros k1 k2 n1 n2 H1 H2.
    apply (camera_maps_lookups s k1 n1) in H1.
    apply (camera_maps_lookups s k2 n2) in H2.
    by apply (set_iteration_ascending s k1 k2).
Qed.

(** X9.  The camera that the solver fixes is the reference image when the
    reference image is among the remaining cameras.  When it is not, the
    subscript creates the key with the value 0, so the camera of index 0 is
    fixed instead: it is not the reference image but the remaining camera
    with the least node id. *)
Theorem vec_indexToFix_reference (s : gset nat) (imgRef : nat) :
  let map_cameraIndexTocameraNode := (camera_maps s).1 in
  let map_cameraNodeToCameraIndex := (camera_maps s).2 in
  (imgRef ∈ s →
     ∃ k, vec_indexToFix map_cameraNodeToCameraIndex imgRef = [k]
          ∧ map_cameraIndexTocameraNode !! k = Some imgRef
          ∧ (map_subscript map_cameraNodeToCameraIndex imgRef).2
            = map_cameraNodeToCameraIndex)
  ∧ (imgRef ∉ s →
     vec_indexToFix map_cameraNodeToCameraIndex imgRef = [0]
     ∧ (map_subscript map_cameraNodeToCameraIndex imgRef).2
       = <[imgRef := 0]> map_cameraNodeToCameraIndex
     ∧ ∀ n, map_cameraIndexTocameraNode !! 0 = Some n →
            n ≠ imgRef ∧ ∀ m, m ∈ s → n ≤ m).
Proof.
  intros idx2node node2idx. subst idx2node node2idx.
  unfold vec_indexToFix, map_subscript. split.
  - intros [k Hk]%set_iteration_elem%list_elem_of_lookup. exists k.
    rewrite (proj2 (proj2 (camera_maps_lookups s k imgRef)) Hk). simpl.
    split; [done|]. split; [|done].
    by apply (proj1 (camera_maps_lookups s k imgRef)).
  - intros Hout.
    destruct ((camera_maps s).2 !! imgRef) as [k|] eqn:Hk.
    { apply (proj2 (camera_maps_lookups s k imgRef)) in Hk.
      destruct Hout. apply set_iteration_elem.
      by eapply list_elem_of_lookup_2. }
    simpl. split; [done|]. split; [done|]. intros n Hn.
    apply (proj1 (camera_maps_lookups s 0 n)) in Hn. split.
    + intros ->. apply Hout, set_iteration_elem.
      by eapply list_elem_of_lookup_2.
    + intros m [j Hj]%set_iteration_elem%list_elem_of_lookup.
      destruct j as [|j]; [by simplify_eq|].
      pose proof (set_iteration_ascending s 0 (S j) n m Hn Hj). lia.
Qed.

(** X10.  When every remaining camera indexes the file list, as the reads
    of [_vec_fileNames] need, the positions at which the gains and the
    offsets are read lie inside the solution vectors, which have two
    entries per file and one more. *)
Theorem solution_reads_in_bounds (s : gset nat) (nbFileNames : nat)
    (imaNum gainIndex offsetIndex : nat) :
  (∀ n, n ∈ s → n < nbFileNames) →
  (imaNum, gainIndex, offsetIndex) ∈ solution_reads s →
  imaNum < nbFileNames
  ∧ imaNum ∈ s
  ∧ gainIndex < solution_size nbFileNames
  ∧ offsetIndex < solution_size nbFileNames.
Proof.
  intros Hfiles Hread. unfold solution_reads in Hread.
  apply elem_of_lookup_imap in Hread as (k & n & [= -> -> ->] & Hk).
  assert (n ∈ s) as Hn
    by (apply set_iteration_elem; by eapply list_elem_of_lookup_2).
  assert (size s ≤ nbFileNames) as Hsize.
  { rewrite <- set_iteration_length. apply inliers_in_range_length. split.
    - apply set_iteration_NoDup.
    - apply Forall_forall. intros x Hx. by apply Hfiles, set_iteration_elem. }
  apply lookup_lt_Some in Hk. rewrite set_iteration_length in Hk.
  unfold solution_size. split; [by apply Hfiles|]. split; [done|]. lia.
Qed.

Lemma solution_reads_in_bounds_witness :
  (∀ n, n ∈ set_indeximage example_pairs → n < 4)
  ∧ (3, 4, 5) ∈ solution_reads (set_indeximage example_pairs)
  ∧ 5 < solution_size 4.
Proof.
  assert (∀ n, n ∈ set_indeximage example_pairs → n < 4) as Hfiles.
  { intros n Hn. apply set_indeximage_elem in Hn as (pair & [v Hv] & Hn).
    unfold example_pairs in Hv.
    apply lookup_insert_Some in Hv as [[<- _]|[_ Hv]];
      [simpl in Hn; lia|].
    apply lookup_singleton_Some in Hv as [<- _]. simpl in Hn; lia. }
  assert ((3, 4, 5) ∈ solution_reads (set_indeximage example_pairs)) as Hread
    by (vm_compute; set_solver).
  split; [exact Hfiles|]. split; [exact Hread|].
  exact (proj2 (proj2 (proj2
           (solution_reads_in_bounds _ 4 3 4 5 Hfiles Hread)))).
Defined.

(** ** The largest component *)

Lemma search_largest_cc_spec (subgraphs : list (nat * gset nat)) (count : nat)
    (largest : option (nat * gset nat)) :
  (search_largest_cc subgraphs count largest = largest
   ∧ ∀ iter, iter ∈ subgraphs → size iter.2 ≤ count)
  ∨ (∃ i iter,
       subgraphs !! i = Some iter
       ∧ search_largest_cc subgraphs count largest = Some iter
       ∧ count < size iter.2
       ∧ (∀ other, other ∈ subgraphs → size other.2 ≤ size iter.2)
       ∧ (∀ j other, j < i → subgraphs !! j = Some other →
                     size other.2 < size iter.2)).
Proof.
  revert count largest.
  induction subgraphs as [|cc rest IH]; intros count largest.
  - left. split; [done|]. by intros ? ?%elem_of_nil.
  - cbn [search_largest_cc].
    destruct (count <? size cc.2) eqn:Hgt.
    + apply Nat.ltb_lt in Hgt. right.
      destruct (IH (size cc.2) (Some cc))
        as [[Hsame Hall] | (i & iter & Hi & Hres & Hlt & Hall & Hfirst)].
      * exists 0, cc. split; [done|]. split; [done|]. split; [done|]. split.
        -- intros other [->|Hin]%elem_of_cons; [lia | by apply Hall].
        -- intros j other Hj. lia.
      * exists (S i), iter. split; [done|]. split; [done|].
        split; [lia|]. split.
        -- intros other [->|Hin]%elem_of_cons; [lia | by apply Hall].
        -- intros [|j] other Hj Hother; simpl in Hother.
           ++ injection Hother as <-. lia.
           ++ apply (Hfirst j); [lia | done].
    + apply Nat.ltb_ge in Hgt.
      destruct (IH count largest)
        as [[Hsame Hall] | (i & iter & Hi & Hres & Hlt & Hall & Hfirst)].
      * left. split; [done|].
        intros other [->|Hin]%elem_of_cons; [lia | by apply Hall].
      * right. exists (S i), iter. split; [done|]. split; [done|].
        split; [done|]. split.
        -- intros other [->|Hin]%elem_of_cons; [lia | by apply Hall].
        -- intros [|j] other Hj Hother; simpl in Hother.
           ++ injection Hother as <-. lia.
           ++ apply (Hfirst j); [lia | done].
Qed.

(** X11.  The search of [CleanGraph] finds no component exactly when every
    component is empty.  Otherwise it finds a component with a node that is
    at least as large as every other one, and the first such in the order
    of the map: every component before it is strictly smaller. *)
Theorem largest_cc_spec (map_subgraphs : list (nat * gset nat)) :
  (largest_cc map_subgraphs = None
   ↔ ∀ iter, iter ∈ map_subgraphs → size iter.2 = 0)
  ∧ (∀ iterLargestCC, largest_cc map_subgraphs = Some iterLargestCC →
     ∃ i, map_subgraphs !! i = Some iterLargestCC
          ∧ 0 < size iterLargestCC.2
          ∧ (∀ other, other ∈ map_subgraphs →
                      size other.2 ≤ size iterLargestCC.2)
          ∧ (∀ j other, j < i → map_subgraphs !! j = Some other →
                        size other.2 < size iterLargestCC.2)).
Proof.
  unfold largest_cc.
  destruct (search_largest_cc_spec map_subgraphs 0 None)
    as [[Hsame Hall] | (i & iter & Hi & Hres & Hlt & Hall & Hfirst)].
  - rewrite Hsame. split; [|done]. split; [|done].
    intros _ other Hin. specialize (Hall other Hin). lia.
  - rewrite Hres. split.
    + split; [done|]. intros Hempty.
      pose proof (Hempty iter (list_elem_of_lookup_2 _ _ _ Hi)). lia.
    + intros ? [= <-]. by exists i.
Qed.

(** * Properties of the CCTag structure program *)

(** ** The connected views *)

Lemma connect_views_elem (connectedViews : gmap nat (gset nat))
    (p : nat * nat) (i j : nat) :
  j ∈ default ∅ (connect_views connectedViews p !! i)
  ↔ j ∈ default ∅ (connectedViews !! i)
    ∨ (i = p.1 ∧ j = p.2) ∨ (i = p.2 ∧ j = p.1).
Proof.
  unfold connect_views. destruct p as [a b]. cbn [fst snd].
  destruct (decide (i = b)) as [->|Hb].
  - rewrite lookup_insert_eq. cbn [default from_option id].
    rewrite elem_of_union, elem_of_singleton.
    destruct (decide (b = a)) as [->|Ha].
    + rewrite lookup_insert_eq. cbn [default from_option id].
      rewrite elem_of_union, elem_of_singleton. intuition congruence.
    + rewrite lookup_insert_ne by done. intuition congruence.
  - rewrite lookup_insert_ne by done.
    destruct (decide (i = a)) as [->|Ha].
    + rewrite lookup_insert_eq. cbn [default from_option id].
      rewrite elem_of_union, elem_of_singleton. intuition congruence.
    + rewrite lookup_insert_ne by done. intuition congruence.
Qed.

Lemma connect_views_fold (pairs : list (nat * nat))
    (connectedViews : gmap nat (gset nat)) (i j : nat) :
  j ∈ default ∅ (foldl connect_views connectedViews pairs !! i)
  ↔ j ∈ default ∅ (connectedViews !! i)
    ∨ ∃ p, p ∈ pairs ∧ ((i = p.1 ∧ j = p.2) ∨ (i = p.2 ∧ j = p.1)).
Proof.
  revert connectedViews.
  induction pairs as [|p pairs IH]; intros connectedViews; cbn [foldl].
  - split; [by left|]. intros [?|(? & ?%elem_of_nil & _)]; done.
  - rewrite IH, connect_views_elem. split.
    + intros [[?|Hp]|(q & Hq & Hij)]; [by left| |].
      * right. exists p. split; [left|done].
      * right. exists q. split; [by right|done].
    + intros [?|(q & [->|Hq]%elem_of_cons & Hij)].
      * by left; left.
      * by left; right.
      * right. by exists q.
Qed.

(** X12.  After the conversion of the view pairs, a view [j] is among the
    connected views of [i] exactly when the pair of the two is in
    [viewPairs], in either order; so the relation is symmetric, whatever
    the direction in which the pairs were given. *)
Theorem connectedViews_symmetric (viewPairs : gset (nat * nat)) :
  (∀ i j, j ∈ default ∅ (connectedViews_of viewPairs !! i)
          ↔ (i, j) ∈ viewPairs ∨ (j, i) ∈ viewPairs)
  ∧ (∀ i j, j ∈ default ∅ (connectedViews_of viewPairs !! i)
            → i ∈ default ∅ (connectedViews_of viewPairs !! j)).
Proof.
  assert (∀ i j, j ∈ default ∅ (connectedViews_of viewPairs !! i)
                 ↔ (i, j) ∈ viewPairs ∨ (j, i) ∈ viewPairs) as Hchar.
  { intros i j. unfold connectedViews_of. rewrite connect_views_fold.
    rewrite lookup_empty. cbn [default from_option id]. split.
    - intros [?%elem_of_empty|([a b] & Hp%elem_of_elements & Hij)]; [done|].
      simpl in Hij. destruct Hij as [[-> ->]|[-> ->]]; [by left|by right].
    - intros [Hp|Hp]; right.
      + exists (i, j). split; [by apply elem_of_elements|]. by left.
      + exists (j, i). split; [by apply elem_of_elements|]. by right. }
  split; [exact Hchar|]. intros i j Hij. apply Hchar. apply Hchar in Hij.
  tauto.
Qed.

(** ** The first free landmark index *)

Lemma IndexT_succ_small (i : Z) :
  (0 ≤ i < 2 ^ 32 - 1)%Z → IndexT_succ i = (i + 1)%Z.
Proof. intros Hi. unfold IndexT_succ. apply Z.mod_small. lia. Qed.

Lemma landmarkMaxIndex_fold (ids : list Z) (start : Z) :
  (∀ id, id ∈ ids → 0 ≤ id < 2 ^ 32 - 1)%Z →
  let r := foldl (fun landmarkMaxIndex id =>
                    Z.max (IndexT_succ id) landmarkMaxIndex) start ids in
  (start ≤ r)%Z
  ∧ (∀ id, id ∈ ids → id < r)%Z
  ∧ (r = start ∨ ∃ id, id ∈ ids ∧ r = (id + 1)%Z).
Proof.
  revert start. induction ids as [|id ids IH]; intros start Hids r; subst r.
  - split; [done|]. split; [by intros ? ?%elem_of_nil | by left].
  - cbn [foldl].
    destruct (IH (Z.max (IndexT_succ id) start)) as (Hle & Hlt & Hval).
    { intros x Hx. apply Hids. by right. }
    rewrite (IndexT_succ_small id) in * by (apply Hids; left).
    split; [lia|]. split.
    + intros x [->|Hx]%elem_of_cons; [lia | by apply Hlt].
    + destruct Hval as [Hval|(x & Hx & Hval)].
      * rewrite Hval. destruct (Z.max_spec (id + 1) start) as [[_ ->]|[_ ->]].
        -- by left.
        -- right. exists id. split; [left|done].
      * right. exists x. split; [by right|done].
Qed.

(** X13.  With [sKeepSift], and as long as no landmark has the last index
    of [IndexT], the first index given to a CCTag landmark is an [IndexT]
    above the index of every landmark of the input scene; it is 0 when
    there is none.  Without [sKeepSift] it is 0. *)
Theorem landmarkMaxIndex_fresh (sKeepSift : bool) (landmarkIds : list Z) :
  (∀ id, id ∈ landmarkIds → 0 ≤ id < 2 ^ 32 - 1)%Z →
  (0 ≤ landmarkMaxIndex sKeepSift landmarkIds < 2 ^ 32)%Z
  ∧ (sKeepSift = true →
     ∀ id, id ∈ landmarkIds → (id < landmarkMaxIndex sKeepSift landmarkIds)%Z)
  ∧ (sKeepSift = false ∨ landmarkIds = [] →
     landmarkMaxIndex sKeepSift landmarkIds = 0%Z).
Proof.
  intros Hids. unfold landmarkMaxIndex.
  destruct (landmarkMaxIndex_fold landmarkIds 0 Hids) as (Hle & Hlt & Hval).
  destruct sKeepSift.
  - split; [|split].
    + destruct Hval as [->|(id & Hid & ->)]; [lia|].
      specialize (Hids id Hid). lia.
    + intros _. exact Hlt.
    + intros [?| ->]; done.
  - split; [lia|]. split; [done|done].
Qed.

Lemma landmarkMaxIndex_fresh_witness :
  (∀ id, id ∈ [3; 8; 5]%Z → 0 ≤ id < 2 ^ 32 - 1)%Z
  ∧ landmarkMaxIndex true [3; 8; 5]%Z = 9%Z
  ∧ (8 < landmarkMaxIndex true [3; 8; 5]%Z)%Z.
Proof.
  assert (∀ id, id ∈ [3; 8; 5]%Z → 0 ≤ id < 2 ^ 32 - 1)%Z as Hids.
  { intros id Hid. repeat (apply elem_of_cons in Hid as [->|Hid]; [lia|]).
    by apply elem_of_nil in Hid. }
  split; [exact Hids|]. split; [reflexivity|].
  apply (proj1 (proj2 (landmarkMaxIndex_fresh true [3; 8; 5]%Z Hids)) eq_refl).
  right; left.
Defined.

(** ** From the CCTags to landmarks *)

Lemma set_iteration_head (s : gset nat) (x : nat) (rest : list nat) :
  set_iteration s = x :: rest → x ∈ s ∧ ∀ y, y ∈ s → x ≤ y.
Proof.
  intros Hs. split.
  - apply set_iteration_elem. rewrite Hs. left.
  - intros y [j Hj]%set_iteration_elem%list_elem_of_lookup.
    destruct j as [|j]; [rewrite Hs in Hj; simplify_eq/=; lia|].
    assert (set_iteration s !! 0 = Some x) as H0 by by rewrite Hs.
    pose proof (set_iteration_ascending s 0 (S j) x y H0 Hj). lia.
Qed.

Lemma set_iteration_nil (s : gset nat) : set_iteration s = [] → s = ∅.
Proof.
  intros Hs. apply set_eq. intros x.
  rewrite <- set_iteration_elem, Hs. set_solver.
Qed.

Lemma add_observations_lookup {Obs : Type} (obs0 : Obs)
    (cctagsObservations : gmap (nat * nat) Obs) (cctagId : nat)
    (landmark : Landmark Obs) (group : gset nat) (v : nat) :
  observations (add_observations obs0 cctagsObservations cctagId landmark group)
    !! v
  = if decide (v ∈ group)
    then Some (default obs0 (cctagsObservations !! (cctagId, v)))
    else observations landmark !! v.
Proof.
  unfold add_observations.
  assert (∀ (l : list nat) (lm : Landmark Obs),
    observations
      (foldl (fun landmark iObsViewId =>
                {| X := X landmark;
                   observations :=
                     <[iObsViewId :=
                         default obs0
                           (cctagsObservations !! (cctagId, iObsViewId))]>
                       (observations landmark) |}) lm l) !! v
    = if decide (v ∈ l)
      then Some (default obs0 (cctagsObservations !! (cctagId, v)))
      else observations lm !! v) as Hfold.
  { induction l as [|x l IHl]; intros lm; cbn [foldl].
    - by rewrite decide_False by apply not_elem_of_nil.
    - rewrite IHl. cbn [observations].
      destruct (decide (v ∈ l)) as [Hl|Hl].
      + by rewrite decide_True by by right.
      + destruct (decide (v = x)) as [->|Hx].
        * rewrite decide_True by left. apply lookup_insert_eq.
        * rewrite decide_False by (by intros [?|?]%elem_of_cons).
          by apply lookup_insert_ne. }
  rewrite Hfold.
  destruct (decide (v ∈ group)) as [Hg|Hg].
  - by rewrite decide_True by by apply set_iteration_elem.
  - by rewrite decide_False by by rewrite set_iteration_elem.
Qed.

Lemma add_observations_views {Obs : Type} (obs0 : Obs)
    (cctagsObservations : gmap (nat * nat) Obs) (cctagId : nat)
    (landmark : Landmark Obs) (group : gset nat) :
  landmark_views
    (add_observations obs0 cctagsObservations cctagId landmark group)
  = landmark_views landmark ∪ group.
Proof.
  apply set_eq. intros v. unfold landmark_views.
  rewrite elem_of_union, !elem_of_dom, add_observations_lookup.
  destruct (decide (v ∈ group)) as [Hg|Hg].
  - split; [by right | by eexists].
  - split; [by left | by intros [?|?]].
Qed.

Lemma grouped_landmark_mono {Obs : Type} (obs0 : Obs)
    (connectedViews : gmap nat (gset nat))
    (cctagsObservations : gmap (nat * nat) Obs) (cctagId : nat)
    (within within' : gset nat) (landmark : Landmark Obs) :
  within ⊆ within' →
  grouped_landmark obs0 connectedViews cctagsObservations cctagId
    within landmark →
  grouped_landmark obs0 connectedViews cctagsObservations cctagId
    within' landmark.
Proof.
  intros Hsub (Hsize & Hin & Hfirst & Hobs).
  split; [done|]. split; [|done]. by etrans.
Qed.

Section split_groups_facts.
Context {Obs : Type} (obs0 : Obs).
Context (connectedViews : gmap nat (gset nat)).
Context (cctagsObservations : gmap (nat * nat) Obs) (cctagId : nat).
Context (all : gset nat) (st0 : conversion_state Obs).
Hypothesis Hfresh : fresh_state st0 (size all).

Lemma groups_invariant_start :
  groups_invariant obs0 connectedViews cctagsObservations cctagId
    all st0 st0 all.
Proof.
  split; [done|]. split; [done|]. split; [lia|]. split; [done|].
  split; intros; lia.
Qed.

(** One round keeps the invariant and takes at least one view away. *)
Lemma split_round_invariant (st : conversion_state Obs) (rem : gset nat)
    (obsViewId : nat) (rest : list nat) :
  groups_invariant obs0 connectedViews cctagsObservations cctagId
    all st0 st rem →
  set_iteration rem = obsViewId :: rest →
  groups_invariant obs0 connectedViews cctagsObservations cctagId all st0
    (split_round obs0 connectedViews cctagsObservations cctagId
       obsViewId rem st).1
    (split_round obs0 connectedViews cctagsObservations cctagId
       obsViewId rem st).2
  ∧ size (split_round obs0 connectedViews cctagsObservations cctagId
            obsViewId rem st).2 < size rem.
Proof.
  intros (Hsub & Hle & Hcount & Hold & Hnew & Hdisj) Hhead.
  destruct (set_iteration_head _ _ _ Hhead) as [Hobs Hmin].
  destruct Hfresh as (Hpos & Hbound & Hkeys).
  unfold split_round. cbn [fst snd].
  set (group := cctagSubGroup connectedViews rem obsViewId).
  assert (group ⊆ rem) as Hgroup
    by (unfold group, cctagSubGroup; clear - Hobs; set_solver).
  assert (obsViewId ∈ group) as Hfirst
    by (apply elem_of_union; left; by apply elem_of_singleton).
  assert (size (rem ∖ group) = size rem - size group) as Hrest
    by by apply size_difference.
  assert (1 ≤ size group) as Hone.
  { rewrite <- (size_singleton (C := gset nat) obsViewId).
    apply subseteq_size. by apply singleton_subseteq_l. }
  pose proof (subseteq_size _ _ Hgroup) as Hgroup_size.
  pose proof (subseteq_size _ _ Hsub) as Hrem_size.
  assert (all ∖ rem ⊆ all ∖ (rem ∖ group)) as Hwithin
    by (clear; set_solver).
  destruct (1 <? size group) eqn:Hbig.
  - apply Nat.ltb_lt in Hbig. cbn [structure landmarkIndex].
    rewrite (IndexT_succ_small (landmarkIndex st)) by lia.
    assert (structure st !! landmarkIndex st = None) as Hfree.
    { rewrite Hold by lia.
      destruct (structure st0 !! landmarkIndex st) as [lm|] eqn:Hlm; [|done].
      apply Hkeys in Hlm. lia. }
    rewrite Hfree. cbn [default from_option id].
    set (landmark := add_observations obs0 cctagsObservations cctagId
                       (default_Landmark Obs) group).
    assert (landmark_views landmark = group) as Hviews.
    { unfold landmark. rewrite add_observations_views.
      unfold landmark_views, default_Landmark. cbn [observations].
      rewrite dom_empty_L. apply (left_id_L ∅ (∪)). }
    assert (grouped_landmark obs0 connectedViews cctagsObservations cctagId
              (all ∖ (rem ∖ group)) landmark) as Hgrouped.
    { split; [rewrite Hviews; lia|]. split; [rewrite Hviews; clear - Hgroup Hsub; set_solver|].
      split.
      - exists obsViewId. rewrite Hviews. split; [done|]. intros v Hv.
        split; [by apply Hmin, Hgroup|].
        unfold group, cctagSubGroup in Hv. clear - Hv. set_solver.
      - intros v Hv. rewrite Hviews in Hv. unfold landmark.
        rewrite add_observations_lookup. by rewrite decide_True. }
    unfold groups_invariant. cbn [structure landmarkIndex].
    split; [|lia]. split; [clear - Hsub; set_solver|]. split; [lia|]. split; [lia|].
    split; [|split].
    + intros i Hi. rewrite lookup_insert_ne by lia. apply Hold. lia.
    + intros i Hi. destruct (decide (i = landmarkIndex st)) as [->|Hne].
      * exists landmark. split; [apply lookup_insert_eq | done].
      * rewrite lookup_insert_ne by done.
        destruct (Hnew i) as (lm & Hlm & Hg); [lia|].
        exists lm. split; [done|]. by eapply grouped_landmark_mono.
    + intros i j lm lm' Hij Hi Hj.
      destruct (decide (i = landmarkIndex st)) as [->|Hni];
        destruct (decide (j = landmarkIndex st)) as [->|Hnj]; [done|..].
      * rewrite lookup_insert_eq, lookup_insert_ne by done.
        intros [= <-] Hlm'. rewrite Hviews.
        destruct (Hnew j) as (lm2 & Hlm2 & _ & Hin & _); [lia|].
        simplify_eq. clear - Hin Hgroup. set_solver.
      * rewrite lookup_insert_ne, lookup_insert_eq by done.
        intros Hlm [= <-]. rewrite Hviews.
        destruct (Hnew i) as (lm2 & Hlm2 & _ & Hin & _); [lia|].
        simplify_eq. clear - Hin Hgroup. set_solver.
      * rewrite !lookup_insert_ne by done. apply Hdisj; [done|lia|lia].
  - apply Nat.ltb_ge in Hbig.
    split; [|lia]. split; [clear - Hsub; set_solver|]. split; [done|]. split; [lia|].
    split; [done|]. split; [|done].
    intros i Hi. destruct (Hnew i Hi) as (lm & Hlm & Hg).
    exists lm. split; [done|]. by eapply grouped_landmark_mono.
Qed.

(** The loop keeps the invariant, and with a round per view it leaves no
    view behind. *)
Lemma split_groups_invariant (fuel : nat) (st : conversion_state Obs)
    (rem : gset nat) :
  groups_invariant obs0 connectedViews cctagsObservations cctagId
    all st0 st rem →
  groups_invariant obs0 connectedViews cctagsObservations cctagId all st0
    (split_groups obs0 fuel connectedViews cctagsObservations cctagId
       rem st).1
    (split_groups obs0 fuel connectedViews cctagsObservations cctagId
       rem st).2
  ∧ (size rem ≤ fuel →
     (split_groups obs0 fuel connectedViews cctagsObservations cctagId
        rem st).2 = ∅).
Proof.
  revert st rem. induction fuel as [|fuel IH]; intros st rem Hinv.
  - split; [done|]. intros Hsize. simpl.
    apply leibniz_equiv, size_empty_iff. lia.
  - cbn [split_groups].
    destruct (set_iteration rem) as [|obsViewId rest] eqn:Hhead.
    + split; [done|]. intros _. by apply set_iteration_nil.
    + destruct (split_round_invariant st rem obsViewId rest Hinv Hhead)
        as [Hinv' Hless].
      destruct (split_round obs0 connectedViews cctagsObservations cctagId
                  obsViewId rem st) as [st' rem'].
      cbn [fst snd] in *. destruct (IH st' rem' Hinv') as [Hfinal Hempty].
      split; [done|]. intros Hsize. apply Hempty. lia.
Qed.

(** With a round per view of the tag the loop has ended, and the invariant
    holds with no view left. *)
Lemma split_groups_exhausts :
  (split_groups obs0 (size all) connectedViews cctagsObservations cctagId
     all st0).2 = ∅
  ∧ groups_invariant obs0 connectedViews cctagsObservations cctagId all st0
      (split_groups obs0 (size all) connectedViews cctagsObservations cctagId
         all st0).1 ∅.
Proof.
  destruct (split_groups_invariant (size all) st0 all groups_invariant_start)
    as [Hinv Hempty].
  specialize (Hempty (le_n _)). rewrite Hempty in Hinv. done.
Qed.
End split_groups_facts.

(** X14.  The [while] loop on the views of one tag ends after at most one
    round per view with no view left.  It gives out consecutive indices, at
    most one for two views; it leaves the landmarks under the other indices
    as they were; under each index it gave out there is a landmark of at
    least two views of the tag, all connected to the least of them, with
    the observations recorded for the tag; and no view is in two of these
    landmarks. *)
Theorem convert_tag_groups {Obs : Type} (obs0 : Obs)
    (connectedViews : gmap nat (gset nat))
    (cctagsObservations : gmap (nat * nat) Obs) (cctagId : nat)
    (views : gset nat) (st0 : conversion_state Obs) :
  fresh_state st0 (size views) →
  let st :=
    convert_tag obs0 connectedViews cctagsObservations st0 (cctagId, views) in
  (split_groups obs0 (size views) connectedViews cctagsObservations cctagId
     views st0).2 = ∅
  ∧ (landmarkIndex st0 ≤ landmarkIndex st
     ≤ landmarkIndex st0 + Z.of_nat (size views) / 2)%Z
  ∧ (∀ i, (i < landmarkIndex st0 ∨ landmarkIndex st ≤ i)%Z →
          structure st !! i = structure st0 !! i)
  ∧ (∀ i, (landmarkIndex st0 ≤ i < landmarkIndex st)%Z →
          ∃ landmark, structure st !! i = Some landmark
            ∧ grouped_landmark obs0 connectedViews cctagsObservations cctagId
                views landmark)
  ∧ (∀ i j landmark landmark',
       i ≠ j →
       (landmarkIndex st0 ≤ i < landmarkIndex st)%Z →
       (landmarkIndex st0 ≤ j < landmarkIndex st)%Z →
       structure st !! i = Some landmark →
       structure st !! j = Some landmark' →
       landmark_views landmark ## landmark_views landmark').
Proof.
  intros Hfresh st.
  destruct (split_groups_exhausts obs0 connectedViews cctagsObservations
              cctagId views st0 Hfresh)
    as (Hempty & _ & Hle & Hcount & Hold & Hnew & Hdisj).
  subst st. unfold convert_tag. cbn [fst snd].
  split; [exact Hempty|]. split.
  { split; [done|]. rewrite size_empty in Hcount.
    set (n := landmarkIndex (split_groups _ _ _ _ _ _ _).1) in *.
    assert (n - landmarkIndex st0 ≤ Z.of_nat (size views) / 2)%Z
      by (apply Z.div_le_lower_bound; lia).
    lia. }
  split; [done|]. split; [|done].
  intros i Hi. destruct (Hnew i Hi) as (landmark & Hlm & Hg).
  exists landmark. split; [done|].
  eapply grouped_landmark_mono; [|done]. apply subseteq_difference_l. done.
Qed.

Lemma convert_tag_groups_witness :
  let st0 := {| structure := (∅ : gmap Z (Landmark nat));
                landmarkIndex := 4%Z |} in
  let st :=
    convert_tag 0 (connectedViews_of example_view_pairs) ∅ st0
      (3, example_visibility) in
  fresh_state st0 (size example_visibility)
  ∧ landmarkIndex st = 5%Z
  ∧ ∃ landmark, structure st !! 4%Z = Some landmark
      ∧ grouped_landmark 0 (connectedViews_of example_view_pairs) ∅ 3
          example_visibility landmark.
Proof.
  intros st0 st.
  assert (fresh_state st0 (size example_visibility)) as Hfresh.
  { split; [done|]. split; [by vm_compute|].
    intros i landmark Hi.
    change ((∅ : gmap Z (Landmark nat)) !! i = Some landmark) in Hi.
    by rewrite lookup_empty in Hi. }
  split; [exact Hfresh|]. split; [by vm_compute|].
  apply (proj1 (proj2 (proj2 (proj2
    (convert_tag_groups 0 (connectedViews_of example_view_pairs) ∅ 3
       example_visibility st0 Hfresh))))).
  by vm_compute.
Defined.

(** ** The conversion of all tags *)

Lemma map_iteration_elem {V : Type} (m : gmap nat V) (k : nat) (v : V) :
  (k, v) ∈ map_iteration m → m !! k = Some v.
Proof.
  unfold map_iteration. rewrite list_elem_of_omap.
  intros (k' & _ & Hk). destruct (m !! k') as [v'|] eqn:Hm; [|done].
  by simplify_eq/=.
Qed.

Lemma map_iteration_fst {V : Type} (m : gmap nat V) :
  (map_iteration m).*1 = set_iteration (dom m).
Proof.
  unfold map_iteration.
  assert (∀ k, k ∈ set_iteration (dom m) → is_Some (m !! k)) as Hl
    by (intros k ?%set_iteration_elem; by apply elem_of_dom).
  revert Hl. generalize (set_iteration (dom m)). intros l.
  induction l as [|k l IH]; intros Hl; [done|].
  destruct (Hl k) as [v Hv]; [by left|].
  cbn [omap list_omap]. rewrite Hv. cbn [fmap option_fmap option_map].
  rewrite fmap_cons. cbn [fst]. f_equal. apply IH.
  intros k' Hk'. apply Hl. by right.
Qed.

Lemma fresh_state_mono {Obs : Type} (st : conversion_state Obs) (n m : nat) :
  n ≤ m → fresh_state st m → fresh_state st n.
Proof.
  intros Hnm (Hpos & Hbound & Hkeys). split; [done|]. split; [lia|done].
Qed.

(** The outer loop from any state that leaves room for the views of the
    tags in [l]: the landmarks from [start] on are numbered without a gap
    and each is the group of one tag. *)
Lemma convert_tags_invariant {Obs : Type} (obs0 : Obs)
    (connectedViews : gmap nat (gset nat))
    (cctagsVisibility : gmap nat (gset nat))
    (cctagsObservations : gmap (nat * nat) Obs) (start : Z)
    (l : list (nat * gset nat)) (st : conversion_state Obs) :
  (∀ cctagId views, (cctagId, views) ∈ l →
     cctagsVisibility !! cctagId = Some views) →
  fresh_state st
    (sum_list ((fun cctagVisibility : nat * gset nat =>
                  size cctagVisibility.2) <$> l)) →
  (start ≤ landmarkIndex st)%Z →
  (∀ i, is_Some (structure st !! i) → (start ≤ i)%Z) →
  (∀ i, (start ≤ i < landmarkIndex st)%Z →
     ∃ landmark, structure st !! i = Some landmark
       ∧ ∃ cctagId views, cctagsVisibility !! cctagId = Some views
           ∧ grouped_landmark obs0 connectedViews cctagsObservations cctagId
               views landmark) →
  let st' := foldl (convert_tag obs0 connectedViews cctagsObservations) st l in
  (landmarkIndex st ≤ landmarkIndex st')%Z
  ∧ (2 * (landmarkIndex st' - landmarkIndex st)
     ≤ Z.of_nat (sum_list ((fun cctagVisibility : nat * gset nat =>
                              size cctagVisibility.2) <$> l)))%Z
  ∧ (∀ i, is_Some (structure st' !! i) → (start ≤ i < landmarkIndex st')%Z)
  ∧ (∀ i, (start ≤ i < landmarkIndex st')%Z →
       ∃ landmark, structure st' !! i = Some landmark
         ∧ ∃ cctagId views, cctagsVisibility !! cctagId = Some views
             ∧ grouped_landmark obs0 connectedViews cctagsObservations cctagId
                 views landmark).
Proof.
  revert st. induction l as [|[cctagId views] l IH];
    intros st Hl Hfresh Hstart Hmin Hgood st'; subst st'.
  - cbn [foldl fmap list_fmap sum_list]. split; [lia|]. split; [simpl; lia|].
    split; [|done]. intros i [landmark Hi].
    destruct Hfresh as (_ & _ & Hkeys). specialize (Hkeys i landmark Hi).
    specialize (Hmin i (mk_is_Some _ _ Hi)). lia.
  - cbn [foldl]. rewrite fmap_cons in Hfresh |- *.
    cbn [sum_list_with fst snd] in Hfresh |- *.
    set (rest := sum_list (_ <$> l)) in *. unfold id in Hfresh |- *.
    assert (fresh_state st (size views)) as Hfresh1
      by (eapply fresh_state_mono; [|exact Hfresh]; lia).
    destruct (split_groups_exhausts obs0 connectedViews cctagsObservations
                cctagId views st Hfresh1)
      as (_ & _ & Hle & Hcount & Hold & Hnew & _).
    rewrite size_empty in Hcount.
    change (split_groups obs0 (size views) connectedViews cctagsObservations
              cctagId views st).1
      with (convert_tag obs0 connectedViews cctagsObservations st
              (cctagId, views)) in Hle, Hcount, Hold, Hnew.
    set (st1 := convert_tag obs0 connectedViews cctagsObservations st
                  (cctagId, views)) in *.
    destruct Hfresh as (Hpos & Hbound & Hkeys).
    destruct (IH st1) as (Hle' & Hcount' & Hkeys' & Hgood').
    + intros c v Hcv. apply Hl. by right.
    + split; [lia|]. split; [lia|]. intros i landmark Hi.
      destruct (decide (i < landmarkIndex st ∨ landmarkIndex st1 ≤ i)%Z)
        as [Hout|Hin]; [|lia].
      rewrite (Hold i Hout) in Hi. specialize (Hkeys i landmark Hi). lia.
    + lia.
    + intros i [landmark Hi].
      destruct (decide (i < landmarkIndex st ∨ landmarkIndex st1 ≤ i)%Z)
        as [Hout|Hin]; [|lia].
      rewrite (Hold i Hout) in Hi. apply Hmin. by eexists.
    + intros i Hi. destruct (decide (i < landmarkIndex st)%Z) as [Hlt|Hge].
      * rewrite (Hold i (or_introl Hlt)). apply Hgood. lia.
      * destruct (Hnew i ltac:(lia)) as (landmark & Hlm & Hg).
        exists landmark. split; [done|]. exists cctagId, views.
        split; [apply Hl; by left|].
        eapply grouped_landmark_mono; [|done].
        by apply subseteq_difference_l.
    + split; [lia|]. split; [lia|]. done.
Qed.

(** X15.  The conversion of all tags, from the first free index: as long as
    the indices do not run out, the landmarks it makes are numbered without
    a gap from [landmarkMaxIndex] to the final [landmarkIndex], there is at
    most one for two views that see a tag, and each landmark has at least
    two views, all of them views of one tag and connected to the least of
    them, with the observations recorded for this tag. *)
Theorem cctags_to_landmarks_spec {Obs : Type} (obs0 : Obs)
    (landmarkMaxIndex : Z) (connectedViews : gmap nat (gset nat))
    (cctagsVisibility : gmap nat (gset nat))
    (cctagsObservations : gmap (nat * nat) Obs) :
  (0 ≤ landmarkMaxIndex)%Z →
  (landmarkMaxIndex + Z.of_nat (nb_visibilities cctagsVisibility) < 2 ^ 32)%Z →
  let st :=
    cctags_to_landmarks obs0 landmarkMaxIndex connectedViews cctagsVisibility
      cctagsObservations in
  (landmarkMaxIndex ≤ landmarkIndex st)%Z
  ∧ (2 * (landmarkIndex st - landmarkMaxIndex)
     ≤ Z.of_nat (nb_visibilities cctagsVisibility))%Z
  ∧ (∀ i, is_Some (structure st !! i)
          ↔ (landmarkMaxIndex ≤ i < landmarkIndex st)%Z)
  ∧ (∀ i landmark, structure st !! i = Some landmark →
       ∃ cctagId views, cctagsVisibility !! cctagId = Some views
         ∧ grouped_landmark obs0 connectedViews cctagsObservations cctagId
             views landmark).
Proof.
  intros Hpos Hbound st.
  destruct (convert_tags_invariant obs0 connectedViews cctagsVisibility
              cctagsObservations landmarkMaxIndex
              (map_iteration cctagsVisibility)
              {| structure := ∅; landmarkIndex := landmarkMaxIndex |})
    as (Hle & Hcount & Hkeys & Hgood).
  - intros cctagId views. apply map_iteration_elem.
  - split; [done|]. split; [done|]. intros i landmark Hi.
    cbn [structure] in Hi. by rewrite lookup_empty in Hi.
  - done.
  - intros i [landmark Hi]. cbn [structure] in Hi.
    by rewrite lookup_empty in Hi.
  - cbn [landmarkIndex]. intros i Hi. lia.
  - cbn [landmarkIndex] in Hle, Hcount.
    split; [exact Hle|]. split; [exact Hcount|]. split.
    + intros i. split; [apply Hkeys|].
      intros Hi. destruct (Hgood i Hi) as (landmark & Hlm & _). by eexists.
    + intros i landmark Hi.
      destruct (Hgood i (Hkeys i (mk_is_Some _ _ Hi)))
        as (landmark' & Hlm & Hg).
      unfold st in Hi. unfold cctags_to_landmarks in Hi.
      rewrite Hi in Hlm. by simplify_eq.
Qed.

Lemma cctags_to_landmarks_spec_witness :
  let st :=
    cctags_to_landmarks 0 9%Z (connectedViews_of example_view_pairs)
      example_cctagsVisibility ∅ in
  (0 ≤ 9)%Z
  ∧ (9 + Z.of_nat (nb_visibilities example_cctagsVisibility) < 2 ^ 32)%Z
  ∧ landmarkIndex st = 10%Z
  ∧ (is_Some (structure st !! 9%Z) ∧ ¬ is_Some (structure st !! 10%Z)).
Proof.
  intros st.
  assert (9 + Z.of_nat (nb_visibilities example_cctagsVisibility) < 2 ^ 32)%Z
    as Hbound by (by vm_compute).
  assert (0 ≤ 9)%Z as Hpos by lia.
  split; [exact Hpos|]. split; [exact Hbound|]. split; [by vm_compute|].
  pose proof (proj1 (proj2 (proj2
    (cctags_to_landmarks_spec 0 9%Z (connectedViews_of example_view_pairs)
       example_cctagsVisibility ∅ Hpos Hbound)))) as Hkeys.
  split.
  - apply Hkeys. by vm_compute.
  - intros [_ Hlt]%Hkeys. revert Hlt. by vm_compute.
Defined.

(** X16.  With [sKeepSift] no landmark made from the tags takes the index
    of a landmark of the input scene, as long as the indices do not run
    out: the indices of the new landmarks lie above all of them. *)
Theorem cctags_landmarks_keep_input_ids {Obs : Type} (obs0 : Obs)
    (landmarkIds : list Z) (connectedViews : gmap nat (gset nat))
    (cctagsVisibility : gmap nat (gset nat))
    (cctagsObservations : gmap (nat * nat) Obs) :
  (∀ id, id ∈ landmarkIds → 0 ≤ id < 2 ^ 32 - 1)%Z →
  (landmarkMaxIndex true landmarkIds
   + Z.of_nat (nb_visibilities cctagsVisibility) < 2 ^ 32)%Z →
  ∀ id, id ∈ landmarkIds →
    structure
      (cctags_to_landmarks obs0 (landmarkMaxIndex true landmarkIds)
         connectedViews cctagsVisibility cctagsObservations) !! id = None.
Proof.
  intros Hids Hbound id Hid.
  destruct (landmarkMaxIndex_fold landmarkIds 0 Hids) as (Hle & Hlt & _).
  fold (landmarkMaxIndex true landmarkIds) in Hle, Hlt.
  destruct (convert_tags_invariant obs0 connectedViews cctagsVisibility
              cctagsObservations (landmarkMaxIndex true landmarkIds)
              (map_iteration cctagsVisibility)
              {| structure := ∅;
                 landmarkIndex := landmarkMaxIndex true landmarkIds |})
    as (_ & _ & Hkeys & _).
  - intros cctagId views. apply map_iteration_elem.
  - split; [done|]. split; [done|]. intros i landmark Hi.
    cbn [structure] in Hi. by rewrite lookup_empty in Hi.
  - done.
  - intros i [landmark Hi]. cbn [structure] in Hi.
    by rewrite lookup_empty in Hi.
  - cbn [landmarkIndex]. intros i Hi. lia.
  - apply eq_None_not_Some. intros Hsome.
    apply Hkeys in Hsome. specialize (Hlt id Hid). lia.
Qed.

Lemma cctags_landmarks_keep_input_ids_witness :
  (∀ id, id ∈ [3; 8; 5]%Z → 0 ≤ id < 2 ^ 32 - 1)%Z
  ∧ (landmarkMaxIndex true [3; 8; 5]%Z
     + Z.of_nat (nb_visibilities example_cctagsVisibility) < 2 ^ 32)%Z
  ∧ structure
      (cctags_to_landmarks 0 (landmarkMaxIndex true [3; 8; 5]%Z)
         (connectedViews_of example_view_pairs) example_cctagsVisibility ∅)
    !! 8%Z = None.
Proof.
  assert (∀ id, id ∈ [3; 8; 5]%Z → 0 ≤ id < 2 ^ 32 - 1)%Z as Hids.
  { intros id Hid. repeat (apply elem_of_cons in Hid as [->|Hid]; [lia|]).
    by apply elem_of_nil in Hid. }
  assert (landmarkMaxIndex true [3; 8; 5]%Z
          + Z.of_nat (nb_visibilities example_cctagsVisibility) < 2 ^ 32)%Z
    as Hbound by (by vm_compute).
  split; [exact Hids|]. split; [exact Hbound|].
  apply (cctags_landmarks_keep_input_ids 0 [3; 8; 5]%Z
           (connectedViews_of example_view_pairs) example_cctagsVisibility ∅
           Hids Hbound).
  right; left.
Defined.

(** ** The database of all CCTags *)

Section database_facts.
Context `{CCTagEnv}.

(** The first [n] rounds of the loop over the regions of a view. *)
Lemma add_regions_prefix (viewId : nat) (regions : Regions) (db : database)
    (n : nat) :
  n ≤ length (GetRegionsPositions regions) →
  length (GetRegionsPositions regions) ≤ length (Descriptors regions) →
  let db' := foldl (add_region viewId regions) db (seq 0 n) in
  (∀ cctagId view,
     view ∈ default ∅ (db'.1 !! cctagId)
     ↔ view ∈ default ∅ (db.1 !! cctagId)
       ∨ (view = viewId ∧ cctagId ≠ UndefinedIndexT
          ∧ ∃ i cctagDesc, i < n ∧ Descriptors regions !! i = Some cctagDesc
              ∧ getCCTagId cctagDesc = cctagId))
  ∧ (∀ cctagId view, view ≠ viewId →
       db'.2 !! (cctagId, view) = db.2 !! (cctagId, view))
  ∧ (∀ cctagId,
       is_Some (db'.2 !! (cctagId, viewId))
       ↔ is_Some (db.2 !! (cctagId, viewId))
         ∨ (cctagId ≠ UndefinedIndexT
            ∧ ∃ i cctagDesc, i < n ∧ Descriptors regions !! i = Some cctagDesc
                ∧ getCCTagId cctagDesc = cctagId))
  ∧ (∀ cctagId obs, db'.2 !! (cctagId, viewId) = Some obs →
       db.2 !! (cctagId, viewId) = Some obs
       ∨ last_tagged_region regions n cctagId obs).
Proof.
  intros Hn Hlen. induction n as [|n IH]; intros db'; subst db'.
  - cbn [seq foldl]. split; [|split; [done|split]].
    + intros cctagId view. split; [by left|].
      intros [?|(_ & _ & i & ? & ? & _)]; [done|lia].
    + intros cctagId. split; [by left|].
      intros [?|(_ & i & ? & ? & _)]; [done|lia].
    + intros cctagId obs Hobs. by left.
  - rewrite seq_S, foldl_app. cbn [foldl]. rewrite Nat.add_0_l.
    destruct IH as (Hvis & Hother & Hkeys & Hlast); [lia|].
    set (db' := foldl (add_region viewId regions) db (seq 0 n)) in *.
    destruct (lookup_lt_is_Some_2 (Descriptors regions) n ltac:(lia))
      as [cctagDesc HcctagDesc].
    destruct (lookup_lt_is_Some_2 (GetRegionsPositions regions) n ltac:(lia))
      as [feature Hfeature].
    unfold add_region. rewrite HcctagDesc, Hfeature. cbn zeta.
    destruct (decide (getCCTagId cctagDesc = UndefinedIndexT)) as [Hno|Htag].
    + split; [|split; [done|split]].
      * intros cctagId view. rewrite Hvis. split.
        -- intros [?|(? & ? & i & d & ? & ? & ?)]; [by left|].
           right. split; [done|]. split; [done|]. exists i, d.
           split; [lia|done].
        -- intros [?|(? & ? & i & d & Hi & Hd & Hid)]; [by left|].
           right. split; [done|]. split; [done|]. exists i, d.
           split; [|done].
           destruct (decide (i = n)) as [->|]; [|lia]. congruence.
      * intros cctagId. rewrite Hkeys. split.
        -- intros [?|(? & i & d & ? & ? & ?)]; [by left|].
           right. split; [done|]. exists i, d. split; [lia|done].
        -- intros [?|(? & i & d & Hi & Hd & Hid)]; [by left|].
           right. split; [done|]. exists i, d. split; [|done].
           destruct (decide (i = n)) as [->|]; [|lia]. congruence.
      * intros cctagId obs Hobs.
        destruct (Hlast cctagId obs Hobs)
          as [?|(Hdef & Hlt & Hregion & Hafter)]; [by left|].
        right. split; [done|]. split; [lia|]. split; [done|].
        intros j d Hj Hd. destruct (decide (j = n)) as [->|].
        -- congruence.
        -- apply (Hafter j d); [lia|done].
    + cbn [fst snd]. split; [|split; [|split]].
      * intros cctagId view.
        destruct (decide (cctagId = getCCTagId cctagDesc)) as [->|Hne].
        -- rewrite lookup_insert_eq. cbn [default from_option id].
           rewrite elem_of_union, elem_of_singleton, Hvis. split.
           ++ intros [->|[?|(? & ? & i & d & ? & ? & ?)]].
              ** right. split; [done|]. split; [done|].
                 exists n, cctagDesc. split; [lia|done].
              ** by left.
              ** right. split; [done|]. split; [done|]. exists i, d.
                 split; [lia|done].
           ++ intros [?|(? & ? & ?)]; [right; by left|by left].
        -- rewrite lookup_insert_ne by done. rewrite Hvis. split.
           ++ intros [?|(? & ? & i & d & ? & ? & ?)]; [by left|].
              right. split; [done|]. split; [done|]. exists i, d.
              split; [lia|done].
           ++ intros [?|(? & ? & i & d & Hi & Hd & Hid)]; [by left|].
              right. split; [done|]. split; [done|]. exists i, d.
              split; [|done].
              destruct (decide (i = n)) as [->|]; [|lia]. congruence.
      * intros cctagId view Hview.
        rewrite lookup_insert_ne by congruence. by apply Hother.
      * intros cctagId.
        destruct (decide (cctagId = getCCTagId cctagDesc)) as [->|Hne].
        -- rewrite lookup_insert_eq. split; [|by eexists].
           intros _. right. split; [done|]. exists n, cctagDesc.
           split; [lia|done].
        -- rewrite lookup_insert_ne by congruence. rewrite Hkeys. split.
           ++ intros [?|(? & i & d & ? & ? & ?)]; [by left|].
              right. split; [done|]. exists i, d. split; [lia|done].
           ++ intros [?|(? & i & d & Hi & Hd & Hid)]; [by left|].
              right. split; [done|]. exists i, d. split; [|done].
              destruct (decide (i = n)) as [->|]; [|lia]. congruence.
      * intros cctagId obs.
        destruct (decide (cctagId = getCCTagId cctagDesc)) as [->|Hne].
        -- rewrite lookup_insert_eq. intros [= <-]. right.
           split; [done|]. cbn [id_feat x]. split; [lia|]. split.
           ++ by exists cctagDesc, feature.
           ++ intros j d Hj. lia.
        -- rewrite lookup_insert_ne by congruence. intros Hobs.
           destruct (Hlast cctagId obs Hobs)
             as [?|(Hdef & Hlt & Hregion & Hafter)]; [by left|].
           right. split; [done|]. split; [lia|]. split; [done|].
           intros j d Hj Hd. destruct (decide (j = n)) as [->|].
           ++ congruence.
           ++ apply (Hafter j d); [lia|done].
Qed.

(** The body of the loop over the views keeps the invariant. *)
Lemma add_view_invariant (reconstructionSfmData : SfM_Data)
    (describerMethodType : nat) (debug : bool)
    (regionsPerView : gmap nat (gmap nat Regions)) (seen : gset nat)
    (db db' : database) (viewId : nat) (regionsPerDesc : gmap nat Regions) :
  database_invariant reconstructionSfmData describerMethodType regionsPerView
    seen db →
  viewId ∉ seen →
  regionsPerView !! viewId = Some regionsPerDesc →
  add_view reconstructionSfmData describerMethodType debug db
    (viewId, regionsPerDesc) = inr db' →
  database_invariant reconstructionSfmData describerMethodType regionsPerView
    (seen ∪ {[viewId]}) db'.
Proof.
  intros (Hkeys & Hvis & Hobs) Hnew Hregs. unfold add_view. cbn [fst snd].
  destruct (GetViews reconstructionSfmData !! viewId) as [view|] eqn:Hview;
    [|done].
  destruct (IsPoseAndIntrinsicDefined reconstructionSfmData view) eqn:Hpose;
    cbn [negb].
  2:{ intros [= <-]. split; [done|]. split; [|done].
      intros cctagId v. rewrite Hvis, elem_of_union, elem_of_singleton. split.
      - intros [? ?]. split; [by left|done].
      - intros [[?| ->] Htagged]; [done|].
        destruct Htagged as (_ & view' & ? & ? & ? & ? & Hview' & Hpose' & _).
        congruence. }
  destruct (regionsPerDesc !! describerMethodType) as [regions|] eqn:Hregions;
    [|done].
  destruct (is_SIFT_Regions regions); cbn [negb]; [|done].
  destruct (Nat.ltb_spec (length (Descriptors regions))
              (length (GetRegionsPositions regions))) as [|Hlen]; [done|].
  intros Hdb'.
  assert (db' = add_regions viewId regions db) as ->.
  { destruct debug; [|congruence].
    destruct (GetIntrinsics reconstructionSfmData !! id_intrinsic view);
      [congruence|done]. }
  clear Hdb'.
  destruct (add_regions_prefix viewId regions db
              (length (GetRegionsPositions regions)) (le_n _) Hlen)
    as (Hvis' & Hother' & Hkeys' & Hlast').
  fold (add_regions viewId regions db) in Hvis', Hother', Hkeys', Hlast'.
  set (db' := add_regions viewId regions db) in *.
  assert (∀ cctagId, db.2 !! (cctagId, viewId) = None) as Hfresh.
  { intros cctagId. apply eq_None_not_Some. intros Hsome.
    apply Hkeys, Hvis in Hsome as [? _]. done. }
  split; [|split].
  - intros cctagId v. rewrite Hvis'.
    destruct (decide (v = viewId)) as [->|Hne].
    + rewrite Hkeys', Hkeys. split.
      * intros [?|(? & ?)]; [by left|by right].
      * intros [?|(_ & ? & ?)]; [by left|by right].
    + rewrite (Hother' cctagId v Hne), Hkeys. split; [by left|].
      intros [?|(? & _)]; done.
  - intros cctagId v.
    rewrite Hvis', Hvis, elem_of_union, elem_of_singleton. split.
    + intros [[? ?]|(-> & Htag & i & cctagDesc & Hi & Hdesc & Hid)].
      * split; [by left|done].
      * split; [by right|]. split; [done|].
        by exists view, regionsPerDesc, regions, i, cctagDesc.
    + intros [[?| ->] Htagged]; [left; done|]. right.
      destruct Htagged as (Htag & view' & regionsPerDesc' & regions' & i
                           & cctagDesc & _ & _ & Hregs' & Hregions' & Hi
                           & Hdesc & Hid).
      simplify_eq. split; [done|]. split; [done|]. by exists i, cctagDesc.
  - intros cctagId v obs Hv.
    destruct (decide (v = viewId)) as [->|Hne].
    + destruct (Hlast' cctagId obs Hv) as [Hold|Hlast].
      * by rewrite Hfresh in Hold.
      * by exists regionsPerDesc, regions.
    + rewrite (Hother' cctagId v Hne) in Hv. by apply Hobs.
Qed.

Lemma database_thrown (reconstructionSfmData : SfM_Data)
    (describerMethodType : nat) (debug : bool)
    (l : list (nat * gmap nat Regions)) (e : database_error) :
  foldl (fun r regionForView =>
           match r with
           | inl e => inl e
           | inr db =>
               add_view reconstructionSfmData describerMethodType debug db
                 regionForView
           end) (inl e) l = inl e.
Proof. by induction l. Qed.

(** The loop over the views keeps the invariant. *)
Lemma database_fold_invariant (reconstructionSfmData : SfM_Data)
    (describerMethodType : nat) (debug : bool)
    (regionsPerView : gmap nat (gmap nat Regions))
    (l : list (nat * gmap nat Regions)) (seen : gset nat)
    (db db' : database) :
  NoDup l.*1 →
  (∀ viewId regionsPerDesc, (viewId, regionsPerDesc) ∈ l →
     regionsPerView !! viewId = Some regionsPerDesc ∧ viewId ∉ seen) →
  database_invariant reconstructionSfmData describerMethodType regionsPerView
    seen db →
  foldl (fun r regionForView =>
           match r with
           | inl e => inl e
           | inr db =>
               add_view reconstructionSfmData describerMethodType debug db
                 regionForView
           end) (inr db) l = inr db' →
  database_invariant reconstructionSfmData describerMethodType regionsPerView
    (seen ∪ list_to_set l.*1) db'.
Proof.
  revert seen db. induction l as [|[viewId regionsPerDesc] l IH];
    intros seen db Hnodup Hl Hinv.
  - cbn [foldl fmap list_fmap list_to_set]. intros [= <-].
    by rewrite (right_id_L ∅ (∪)).
  - cbn [foldl]. rewrite fmap_cons in Hnodup |- *.
    cbn [fst list_to_set] in Hnodup |- *.
    apply NoDup_cons in Hnodup as [Hhead Hnodup].
    destruct (Hl viewId regionsPerDesc) as [Hregs Hnew]; [by left|].
    destruct (add_view reconstructionSfmData describerMethodType debug db
                (viewId, regionsPerDesc)) as [e|db1] eqn:Hview.
    + by rewrite database_thrown.
    + intros Hdb'. rewrite (assoc_L (∪)).
      apply (IH (seen ∪ {[viewId]}) db1); [done| |by eapply add_view_invariant
                                                 |done].
      intros v regs Hv. destruct (Hl v regs) as [? ?]; [by right|].
      split; [done|].
      rewrite elem_of_union, elem_of_singleton. intros [?| ->]; [done|].
      apply Hhead. apply list_elem_of_fmap. by exists (viewId, regs).
Qed.

(** The database has the invariant with every view of the regions seen. *)
Lemma cctags_database_invariant (reconstructionSfmData : SfM_Data)
    (describerMethodType : nat) (debug : bool)
    (regionsPerView : gmap nat (gmap nat Regions)) (db : database) :
  cctags_database reconstructionSfmData describerMethodType debug regionsPerView
  = inr db →
  database_invariant reconstructionSfmData describerMethodType regionsPerView
    (dom regionsPerView) db.
Proof.
  intros Hdb.
  assert (dom regionsPerView
          = ∅ ∪ list_to_set (map_iteration regionsPerView).*1) as ->.
  { rewrite (left_id_L ∅ (∪)), map_iteration_fst. apply set_eq. intros v.
    by rewrite elem_of_list_to_set, set_iteration_elem. }
  eapply database_fold_invariant; [| | |exact Hdb].
  - rewrite map_iteration_fst. apply set_iteration_NoDup.
  - intros v regs Hv. split; [by apply map_iteration_elem|done].
  - split; [|split].
    + intros cctagId v. cbn [fst snd]. rewrite !lookup_empty. cbn.
      split; [by intros [? ?]|done].
    + intros cctagId v. cbn [fst]. rewrite lookup_empty. cbn.
      split; [done|by intros [? _]].
    + intros cctagId v obs Hv. cbn [snd] in Hv. by rewrite lookup_empty in Hv.
Qed.
End database_facts.

(** X17.  When the loop over the views ends without an exception, the
    views under a tag in [cctagsVisibility] are the reconstructed views with
    a region of this tag; [cctagsObservations] has an observation for a tag
    and a view when the view is under the tag; and this observation is the
    one of the last region of the view with the tag: its feature position
    and its rank. *)
Theorem cctags_database_spec `{CCTagEnv} (reconstructionSfmData : SfM_Data)
    (describerMethodType : nat) (debug : bool)
    (regionsPerView : gmap nat (gmap nat Regions))
    (cctagsVisibility : gmap nat (gset nat))
    (cctagsObservations : gmap (nat * nat) Observation) :
  cctags_database reconstructionSfmData describerMethodType debug regionsPerView
  = inr (cctagsVisibility, cctagsObservations) →
  (∀ cctagId viewId,
     viewId ∈ default ∅ (cctagsVisibility !! cctagId)
     ↔ tagged_view reconstructionSfmData describerMethodType regionsPerView
         cctagId viewId)
  ∧ (∀ cctagId viewId,
       is_Some (cctagsObservations !! (cctagId, viewId))
       ↔ viewId ∈ default ∅ (cctagsVisibility !! cctagId))
  ∧ (∀ cctagId viewId obs,
       cctagsObservations !! (cctagId, viewId) = Some obs →
       ∃ regionsPerDesc regions,
         regionsPerView !! viewId = Some regionsPerDesc
         ∧ regionsPerDesc !! describerMethodType = Some regions
         ∧ last_tagged_region regions
             (length (GetRegionsPositions regions)) cctagId obs).
Proof.
  intros Hdb.
  destruct (cctags_database_invariant _ _ _ _ _ Hdb) as (Hkeys & Hvis & Hobs).
  cbn [fst snd] in Hkeys, Hvis, Hobs.
  split; [|split; [exact Hkeys|exact Hobs]].
  intros cctagId viewId. rewrite Hvis. split; [by intros [_ ?]|].
  intros Htagged. split; [|done].
  destruct Htagged as (_ & ? & regionsPerDesc & ? & ? & ? & _ & _ & Hregs & _).
  apply elem_of_dom. by eexists.
Qed.

Lemma cctags_database_spec_witness :
  @cctags_database example_CCTagEnv example_scene 7 false
    example_regionsPerView
  = inr ({[ 3 := {[ 1; 2 ]} ]},
         {[ (3, 1) := {| x := (1%float, 2%float); id_feat := 2 |};
            (3, 2) := {| x := (1%float, 2%float); id_feat := 1 |} ]})
  ∧ @tagged_view example_CCTagEnv example_scene 7 example_regionsPerView 3 2.
Proof.
  assert (@cctags_database example_CCTagEnv example_scene 7 false
            example_regionsPerView
          = inr ({[ 3 := {[ 1; 2 ]} ]},
                 {[ (3, 1) := {| x := (1%float, 2%float); id_feat := 2 |};
                    (3, 2) := {| x := (1%float, 2%float); id_feat := 1 |} ]}))
    as Hdb by (by vm_compute).
  split; [exact Hdb|].
  apply (proj1 (@cctags_database_spec example_CCTagEnv _ _ _ _ _ _ Hdb)).
  rewrite lookup_singleton_eq. cbn [default from_option id].
  apply elem_of_union. right. by apply elem_of_singleton.
Defined.

(** X18.  The landmarks made from the database: every view of a landmark
    is a reconstructed view with a region of the tag of the landmark, and
    its observation in the landmark is the one the database holds for the
    tag and the view; the subscript of line 250 never makes a new
    observation. *)
Theorem cctag_landmarks_recorded `{CCTagEnv} (reconstructionSfmData : SfM_Data)
    (describerMethodType : nat) (debug : bool)
    (regionsPerView : gmap nat (gmap nat Regions))
    (cctagsVisibility : gmap nat (gset nat))
    (cctagsObservations : gmap (nat * nat) Observation)
    (obs0 : Observation) (landmarkMaxIndex : Z)
    (connectedViews : gmap nat (gset nat)) :
  cctags_database reconstructionSfmData describerMethodType debug regionsPerView
  = inr (cctagsVisibility, cctagsObservations) →
  (0 ≤ landmarkMaxIndex)%Z →
  (landmarkMaxIndex + Z.of_nat (nb_visibilities cctagsVisibility) < 2 ^ 32)%Z →
  ∀ i landmark,
    structure
      (cctags_to_landmarks obs0 landmarkMaxIndex connectedViews
         cctagsVisibility cctagsObservations) !! i = Some landmark →
    ∃ cctagId, cctagId ≠ UndefinedIndexT
      ∧ ∀ viewId, viewId ∈ landmark_views landmark →
          tagged_view reconstructionSfmData describerMethodType regionsPerView
            cctagId viewId
          ∧ ∃ obs, cctagsObservations !! (cctagId, viewId) = Some obs
              ∧ observations landmark !! viewId = Some obs.
Proof.
  intros Hdb Hpos Hbound i landmark Hlm.
  destruct (cctags_database_invariant _ _ _ _ _ Hdb) as (Hkeys & Hvis & _).
  cbn [fst snd] in Hkeys, Hvis.
  destruct (convert_tags_invariant obs0 connectedViews cctagsVisibility
              cctagsObservations landmarkMaxIndex
              (map_iteration cctagsVisibility)
              {| structure := ∅; landmarkIndex := landmarkMaxIndex |})
    as (_ & _ & Hrange & Hgood).
  - intros cctagId views. apply map_iteration_elem.
  - split; [done|]. split; [done|]. intros j lm Hj.
    cbn [structure] in Hj. by rewrite lookup_empty in Hj.
  - done.
  - intros j [lm Hj]. cbn [structure] in Hj. by rewrite lookup_empty in Hj.
  - cbn [landmarkIndex]. intros j Hj. lia.
  - destruct (Hgood i (Hrange i (mk_is_Some _ _ Hlm)))
      as (landmark' & Hlm' & cctagId & views & Hviews & Hgrouped).
    unfold cctags_to_landmarks in Hlm. rewrite Hlm in Hlm'.
    injection Hlm' as <-.
    destruct Hgrouped as (_ & Hin & (first & Hfirst & _) & Hobs).
    assert (∀ viewId, viewId ∈ landmark_views landmark →
              tagged_view reconstructionSfmData describerMethodType
                regionsPerView cctagId viewId) as Htagged.
    { intros viewId Hv. apply (Hvis cctagId viewId).
      rewrite Hviews. by apply Hin. }
    exists cctagId. split; [by destruct (Htagged first Hfirst)|].
    intros viewId Hv. split; [by apply Htagged|].
    destruct (proj2 (Hkeys cctagId viewId)) as [obs Hsome].
    { rewrite Hviews. by apply Hin. }
    exists obs. split; [done|]. rewrite (Hobs viewId Hv), Hsome. done.
Qed.

Lemma cctag_landmarks_recorded_witness :
  let cctagsVisibility : gmap nat (gset nat) := {[ 3 := {[ 1; 2 ]} ]} in
  let cctagsObservations : gmap (nat * nat) Observation :=
    {[ (3, 1) := {| x := (1%float, 2%float); id_feat := 2 |};
       (3, 2) := {| x := (1%float, 2%float); id_feat := 1 |} ]} in
  let obs0 := {| x := (0%float, 0%float); id_feat := 0 |} in
  @cctags_database example_CCTagEnv example_scene 7 false
    example_regionsPerView
  = inr (cctagsVisibility, cctagsObservations)
  ∧ (0 ≤ 0)%Z
  ∧ (0 + Z.of_nat (nb_visibilities cctagsVisibility) < 2 ^ 32)%Z
  ∧ ∃ landmark cctagId,
      structure
        (cctags_to_landmarks obs0 0 (connectedViews_of example_view_pairs)
           cctagsVisibility cctagsObservations) !! 0%Z = Some landmark
      ∧ cctagId ≠ @UndefinedIndexT example_CCTagEnv
      ∧ ∀ viewId, viewId ∈ landmark_views landmark →
          @tagged_view example_CCTagEnv example_scene 7 example_regionsPerView
            cctagId viewId
          ∧ ∃ obs, cctagsObservations !! (cctagId, viewId) = Some obs
              ∧ observations landmark !! viewId = Some obs.
Proof.
  intros cctagsVisibility cctagsObservations obs0.
  assert (@cctags_database example_CCTagEnv example_scene 7 false
            example_regionsPerView
          = inr (cctagsVisibility, cctagsObservations))
    as Hdb by (by vm_compute).
  assert (0 ≤ 0)%Z as Hpos by lia.
  assert (0 + Z.of_nat (nb_visibilities cctagsVisibility) < 2 ^ 32)%Z
    as Hbound by (by vm_compute).
  split; [exact Hdb|]. split; [exact Hpos|]. split; [exact Hbound|].
  destruct (structure
              (cctags_to_landmarks obs0 0
                 (connectedViews_of example_view_pairs)
                 cctagsVisibility cctagsObservations) !! 0%Z)
    as [landmark|] eqn:Hlm; [|by vm_compute in Hlm].
  destruct (@cctag_landmarks_recorded example_CCTagEnv example_scene 7 false
              example_regionsPerView cctagsVisibility cctagsObservations
              obs0 0%Z (connectedViews_of example_view_pairs)
              Hdb Hpos Hbound 0%Z landmark Hlm)
    as (cctagId & Htag & Hviews).
  by exists landmark, cctagId.
Defined.
